(** * Blog summariser: the text pipeline of the [process-blog] route

    A shallow embedding of the route handler of the Nexium blog summariser
    (the TypeScript file with [generateSummary], [translateToUrdu],
    [extractTextFromHtml], [calculateReadTime] and [POST]) and proofs about
    it: what the extractor lets through, how the content selector is chosen,
    what a summary looks like, how the word substitution behaves and which
    error the handler answers with.

    JavaScript strings are sequences of UTF-16 code units, so a string is a
    [list N]; the regular expressions of the source are all of the shape
    "runs of one character class" or "one of a few literal phrases", and each
    is embedded as the scanner that the regular expression engine performs
    for that shape. *)

From Stdlib Require Import NArith List Bool Lia.
From stdpp Require Import base strings list gmap.

Local Open Scope N_scope.
Local Set Warnings "-register-all".

(** ** JavaScript strings *)

(** A string value: its UTF-16 code units. *)
Abbreviation jsstring := (list N).

Module Js.

(** An ASCII literal of the source as code units. *)
Definition lit (s : string) : jsstring :=
  map (fun a => N.of_nat (Ascii.nat_of_ascii a)) (String.list_ascii_of_string s).

Definition space : N := 32.

(** [\s] of a regular expression and the characters [String.prototype.trim]
    strips: WhiteSpace and LineTerminator of ECMAScript. *)
Definition isWhiteSpace (c : N) : bool :=
  (c =? 9) || (c =? 10) || (c =? 11) || (c =? 12) || (c =? 13) || (c =? 32)
  || (c =? 160) || (c =? 5760) || ((8192 <=? c) && (c <=? 8202))
  || (c =? 8232) || (c =? 8233) || (c =? 8239) || (c =? 8287)
  || (c =? 12288) || (c =? 65279).

(** The class [[\r\n]]. *)
Definition isLineBreak (c : N) : bool := (c =? 13) || (c =? 10).

(** [\w] without the unicode flag: [[A-Za-z0-9_]]. *)
Definition isWordChar (c : N) : bool :=
  ((65 <=? c) && (c <=? 90)) || ((97 <=? c) && (c <=? 122))
  || ((48 <=? c) && (c <=? 57)) || (c =? 95).

(** The class [[.!?\n]] whose complement makes the body of a sentence. *)
Definition isSentenceBreak (c : N) : bool :=
  (c =? 46) || (c =? 33) || (c =? 63) || (c =? 10).

(** The class [[.!?]]. *)
Definition isTerminal (c : N) : bool := (c =? 46) || (c =? 33) || (c =? 63).

(** [toLowerCase] on one code unit.  The source lowercases [\w+] matches only,
    where the Unicode mapping is the ASCII one. *)
Definition lowerUnit (c : N) : N :=
  if (65 <=? c) && (c <=? 90) then c + 32 else c.

Definition toLowerCase (s : jsstring) : jsstring := map lowerUnit s.

(** Canonicalize of a regular expression with the [i] flag and no [u] flag:
    the upper case of the code unit.  A code unit of 128 or more is never
    sent below 128 by Canonicalize, so it cannot meet a pattern character
    of the source's patterns, which are ASCII; it is left as it is here. *)
Definition canonicalize (c : N) : N :=
  if (97 <=? c) && (c <=? 122) then c - 32 else c.

(** [s.trimStart()], [s.trimEnd()], [s.trim()]. *)
Fixpoint trimStart (s : jsstring) : jsstring :=
  match s with
  | [] => []
  | c :: r => if isWhiteSpace c then trimStart r else s
  end.

Definition trimEnd (s : jsstring) : jsstring := rev (trimStart (rev s)).

Definition trim (s : jsstring) : jsstring := trimEnd (trimStart s).

(** What a replacer yields for the run collected so far ([run] is kept
    reversed); no run, no call. *)
Definition flushRun (f : jsstring -> jsstring) (run : jsstring) : jsstring :=
  match run with
  | [] => []
  | _ => f (rev run)
  end.

(** [s.replace(/[cls]+/g, f)]: every maximal run of characters of the class
    is handed to [f] and replaced by what it returns; the rest is copied. *)
Fixpoint replaceRuns (cls : N -> bool) (f : jsstring -> jsstring)
    (s run : jsstring) : jsstring :=
  match s with
  | [] => flushRun f run
  | c :: r =>
      if cls c then replaceRuns cls f r (c :: run)
      else flushRun f run ++ c :: replaceRuns cls f r []
  end.

(** [s.match(/[cls]+/g) || []]: the maximal runs, left to right. *)
Fixpoint matchRuns (cls : N -> bool) (s run : jsstring) : list jsstring :=
  match s with
  | [] => match run with [] => [] | _ => [rev run] end
  | c :: r =>
      if cls c then matchRuns cls r (c :: run)
      else match run with
           | [] => matchRuns cls r []
           | _ => rev run :: matchRuns cls r []
           end
  end.

(** [s.split(/[cls]+/)]: the pieces between the maximal runs, an empty piece
    in front when the string starts with a run and at the end when it ends
    with one; the empty string splits into one empty piece. *)
Fixpoint splitRuns (cls : N -> bool) (s piece : jsstring) (inSep : bool)
    : list jsstring :=
  match s with
  | [] => [rev piece]
  | c :: r =>
      if cls c then
        if inSep then splitRuns cls r [] true
        else rev piece :: splitRuns cls r [] true
      else splitRuns cls r (c :: piece) false
  end.

(** [content.match(/[^.!?\n]+[.!?]?/g) || []]: a match is a maximal run of
    characters other than [. ! ? \n] followed by one of [. ! ?] when there
    is one; a position where no run starts is skipped. *)
Fixpoint matchSentences (s run : jsstring) : list jsstring :=
  match s with
  | [] => match run with [] => [] | _ => [rev run] end
  | c :: r =>
      if isSentenceBreak c then
        match run with
        | [] => matchSentences r []
        | _ =>
            if isTerminal c then rev (c :: run) :: matchSentences r []
            else rev run :: matchSentences r []
        end
      else matchSentences r (c :: run)
  end.

(** A literal pattern matched at the start of [s] under the [i] flag. *)
Fixpoint matchesAt (pat s : jsstring) : bool :=
  match pat, s with
  | [], _ => true
  | _ :: _, [] => false
  | p :: pat', c :: s' =>
      (canonicalize p =? canonicalize c) && matchesAt pat' s'
  end.

(** [s.match(/p1|p2|.../i)] is not null: some alternative matches at some
    position. *)
Fixpoint testAny (pats : list jsstring) (s : jsstring) : bool :=
  existsb (fun p => matchesAt p s) pats
  || match s with
     | [] => false
     | _ :: s' => testAny pats s'
     end.

(** [Array.from(new Set(xs))] continued from the members [seen]: a value is
    kept the first time it is met. *)
Fixpoint setFrom (seen xs : list jsstring) : list jsstring :=
  match xs with
  | [] => []
  | x :: r =>
      if bool_decide (x ∈ seen) then setFrom seen r
      else x :: setFrom (x :: seen) r
  end.

Definition arrayFromSet (xs : list jsstring) : list jsstring := setFrom [] xs.

(** [xs.join(sep)]. *)
Fixpoint join (sep : jsstring) (xs : list jsstring) : jsstring :=
  match xs with
  | [] => []
  | [x] => x
  | x :: r => x ++ sep ++ join sep r
  end.

(** [s.substring(0, n)] and [xs.slice(0, n)]. *)
Definition substring0 (n : nat) (s : jsstring) : jsstring := take n s.
Definition slice0 (n : nat) (xs : list jsstring) : list jsstring := take n xs.

(** Truthiness of a string: [!s] holds for the empty string only. *)
Definition nonEmpty (s : jsstring) : bool :=
  match s with [] => false | _ => true end.

(** [a || b] on strings. *)
Definition orElse (a b : jsstring) : jsstring := if nonEmpty a then a else b.

End Js.

Import Js.

(** ** The summariser *)

(** The alternatives of
    [/placeholder|no-script|Business Insider tells the innovative stories you want to know/i]. *)
Definition noisePatterns : list jsstring :=
  [ lit "placeholder";
    lit "no-script";
    lit "Business Insider tells the innovative stories you want to know" ].

(** [s.match(/placeholder|no-script|.../i)] is not null. *)
Definition matchesNoise (s : jsstring) : bool := testAny noisePatterns s.

(** [const sentences = content.match(/[^.!?\n]+[.!?]?/g) || []]. *)
Definition sentences (content : jsstring) : list jsstring :=
  matchSentences content [].

(** [const uniqueSentences = Array.from(new Set(sentences.map(s => s.trim())))
      .filter(s => s.length > 30 && !s.match(/.../i))]. *)
Definition uniqueSentences (content : jsstring) : list jsstring :=
  List.filter
    (fun s => (30 <? length s)%nat && negb (matchesNoise s))
    (arrayFromSet (map trim (sentences content))).

(** [return uniqueSentences.slice(0, 3).join(" ") || ""]. *)
Definition generateSummary (content : jsstring) : jsstring :=
  orElse (join [space] (slice0 3 (uniqueSentences content))) [].

(** ** The translator *)

(** What reading a property of the dictionary object can give: the
    dictionary is an object literal, so besides its own string properties a
    lookup reaches the properties of [Object.prototype]. *)
Inductive jsvalue : Type :=
  | VUndefined
  | VString (s : jsstring)
  | VFunction (name : jsstring)
  | VObjectPrototype.

(** The function-valued properties of [Object.prototype] and the names of
    the functions they hold. *)
Definition objectPrototypeFunctions : list (jsstring * jsstring) :=
  [ (lit "constructor", lit "Object");
    (lit "hasOwnProperty", lit "hasOwnProperty");
    (lit "isPrototypeOf", lit "isPrototypeOf");
    (lit "propertyIsEnumerable", lit "propertyIsEnumerable");
    (lit "toLocaleString", lit "toLocaleString");
    (lit "toString", lit "toString");
    (lit "valueOf", lit "valueOf");
    (lit "__defineGetter__", lit "__defineGetter__");
    (lit "__defineSetter__", lit "__defineSetter__");
    (lit "__lookupGetter__", lit "__lookupGetter__");
    (lit "__lookupSetter__", lit "__lookupSetter__") ].

Fixpoint assoc {V : Type} (k : jsstring) (kvs : list (jsstring * V)) : option V :=
  match kvs with
  | [] => None
  | (k', v) :: r => if bool_decide (k' = k) then Some v else assoc k r
  end.

(** A property read on [Object.prototype]; [__proto__] is its accessor,
    which on a plain object answers [Object.prototype] itself. *)
Definition objectPrototype (k : jsstring) : jsvalue :=
  match assoc k objectPrototypeFunctions with
  | Some name => VFunction name
  | None => if bool_decide (k = lit "__proto__") then VObjectPrototype else VUndefined
  end.

(** [dict[k]] for a plain object with own properties [dict]. *)
Definition getProperty (dict : gmap jsstring jsstring) (k : jsstring) : jsvalue :=
  match dict !! k with
  | Some v => VString v
  | None => objectPrototype k
  end.

Definition truthy (v : jsvalue) : bool :=
  match v with
  | VUndefined => false
  | VString s => nonEmpty s
  | VFunction _ | VObjectPrototype => true
  end.

(** ToString, which [replace] applies to what its replacer returns. *)
Definition toStringValue (v : jsvalue) : jsstring :=
  match v with
  | VUndefined => lit "undefined"
  | VString s => s
  | VFunction name => lit "function " ++ name ++ lit "() { [native code] }"
  | VObjectPrototype => lit "[object Object]"
  end.

(** The part of [translationDict] the source spells out; the rest of the
    object literal is elided there ("rest of your dictionary"), so the
    functions below take the dictionary as an argument. *)
Definition translationDictShown : gmap jsstring jsstring :=
  <[lit "the" := [1740; 1729]]> (<[lit "is" := [1729; 1746]]> ∅).

(** The replacer [(word) => { const cleanWord = word.toLowerCase();
    return translationDict[cleanWord] || word; }]. *)
Definition translateWord (translationDict : gmap jsstring jsstring)
    (word : jsstring) : jsstring :=
  let cleanWord := toLowerCase word in
  let found := getProperty translationDict cleanWord in
  if truthy found then toStringValue found else word.

(** [return text.replace(/\w+/g, (word) => ...)]. *)
Definition translateToUrdu (translationDict : gmap jsstring jsstring)
    (text : jsstring) : jsstring :=
  replaceRuns isWordChar (translateWord translationDict) text [].

(** ** The parsed document *)

Module Dom.

(** A node of the tree [cheerio.load] builds; comments and the doctype
    carry no text and match no selector, so they are left out. *)
Inductive node : Type :=
  | TextNode (data : jsstring)
  | Element (name : jsstring) (attribs : list (jsstring * jsstring))
      (children : list node).

(** The simple selectors the source uses. *)
Inductive selector : Type :=
  | ByTag (name : jsstring)
  | ByClass (cls : jsstring)
  | ById (id : jsstring)
  | ByTagAttr (name attr value : jsstring).

Definition classList (attribs : list (jsstring * jsstring)) : list jsstring :=
  match assoc (lit "class") attribs with
  | Some v => splitRuns isWhiteSpace v [] false
  | None => []
  end.

Definition matches (sel : selector) (n : node) : bool :=
  match n with
  | TextNode _ => false
  | Element name attribs _ =>
      match sel with
      | ByTag t => bool_decide (name = t)
      | ByClass c => bool_decide (c ∈ classList attribs)
      | ById i => bool_decide (assoc (lit "id") attribs = Some i)
      | ByTagAttr t a v =>
          bool_decide (name = t) && bool_decide (assoc a attribs = Some v)
      end
  end.

(** The elements below and including [n] that match, in document order. *)
Fixpoint selectIn (sel : selector) (n : node) : list node :=
  match n with
  | TextNode _ => []
  | Element _ _ children =>
      (if matches sel n then [n] else []) ++ List.flat_map (selectIn sel) children
  end.

(** [$(sel)] on a document given by its top-level nodes. *)
Definition select (sel : selector) (doc : list node) : list node :=
  List.flat_map (selectIn sel) doc.

(** The text of a node: the data of the text nodes below it. *)
Fixpoint textOf (n : node) : jsstring :=
  match n with
  | TextNode data => data
  | Element _ _ children => List.flat_map textOf children
  end.

(** [selection.text()]: the texts of the selected elements, concatenated. *)
Definition text (selection : list node) : jsstring :=
  List.flat_map textOf selection.

(** [selection.first()]. *)
Definition first (selection : list node) : list node := take 1 selection.

(** [selection.attr(a)] : the attribute of the first selected element. *)
Definition attr (a : jsstring) (selection : list node) : option jsstring :=
  match selection with
  | Element _ attribs _ :: _ => assoc a attribs
  | _ => None
  end.

(** [$(sels.join(", ")).remove()] below one node: a matching element goes
    with all it contains. *)
Fixpoint removeIn (sels : list selector) (n : node) : list node :=
  match n with
  | TextNode _ => [n]
  | Element name attribs children =>
      if existsb (fun sel => matches sel n) sels then []
      else [Element name attribs (List.flat_map (removeIn sels) children)]
  end.

Definition remove (sels : list selector) (doc : list node) : list node :=
  List.flat_map (removeIn sels) doc.

End Dom.

Import Dom.

(** ** The extractor *)

(** ["script, style, nav, header, footer, aside, img, .no-script, .placeholder"]. *)
Definition noiseSelectors : list selector :=
  [ ByTag (lit "script"); ByTag (lit "style"); ByTag (lit "nav");
    ByTag (lit "header"); ByTag (lit "footer"); ByTag (lit "aside");
    ByTag (lit "img"); ByClass (lit "no-script"); ByClass (lit "placeholder") ].

Definition contentSelectors : list selector :=
  [ ByTag (lit "article");
    ByClass (lit "post-content");
    ByClass (lit "entry-content");
    ByClass (lit "content");
    ByTag (lit "main");
    ByClass (lit "main-content");
    ById (lit "content");
    ByClass (lit "post-body") ].

(** The loop
    [for (const selector of contentSelectors) { const element = $(selector);
       if (element.length > 0) { content = element.text(); break; } }]
    started from [content = ""]. *)
Fixpoint firstMatch (selectors : list selector) (doc : list node) : jsstring :=
  match selectors with
  | [] => []
  | sel :: rest =>
      let element := select sel doc in
      if (0 <? length element)%nat then text element
      else firstMatch rest doc
  end.

(** The content before normalisation: the loop, then
    [if (!content) { content = $("body").text(); }]. *)
Definition selectContent (doc : list node) : jsstring :=
  let content := firstMatch contentSelectors doc in
  if negb (nonEmpty content) then text (select (ByTag (lit "body")) doc)
  else content.

(** [content.replace(/\s+/g, " ").split(/[\r\n]+/).map(line => line.trim())
      .filter(line => line.length > 0 && !line.match(/.../i))]. *)
Definition contentLines (content : jsstring) : list jsstring :=
  List.filter
    (fun line => (0 <? length line)%nat && negb (matchesNoise line))
    (map trim
       (splitRuns isLineBreak
          (replaceRuns isWhiteSpace (fun _ => [space]) content []) [] false)).

(** [const uniqueLines = Array.from(new Set(lines)); return uniqueLines.join(" ")]. *)
Definition normalizeContent (content : jsstring) : jsstring :=
  join [space] (arrayFromSet (contentLines content)).

(** [extractTextFromHtml] on the tree [cheerio.load(html)] gave. *)
Definition extractTextFromDocument (doc : list node) : jsstring :=
  normalizeContent (selectContent (remove noiseSelectors doc)).

(** [Math.ceil(wordCount / averageWPM)]. *)
Definition calculateReadTime (wordCount : nat) : nat :=
  let averageWPM := 200%nat in
  if (wordCount mod averageWPM =? 0)%nat then (wordCount / averageWPM)%nat
  else (wordCount / averageWPM + 1)%nat.

(** ** The route handler *)

(** What a [throw] carries: an axios error with its [code] and the status of
    its [response] when it has them, or any other value. *)
Inductive exn : Type :=
  | AxiosError (code : option jsstring) (responseStatus : option N)
  | OtherError.

(** The body [await request.json()] gives: the promise rejects, or the JSON
    value is [null], or it is another value, with its [url] property when
    it has one (a string, by the route's interface [{ url: string }]). *)
Inductive requestBody : Type :=
  | BodyRejected
  | BodyNull
  | BodyValue (url : option jsstring).

(** What the handler does to the outside, in order. *)
Inductive event : Type :=
  | NewURL (url : jsstring)
  | AxiosGet (url : jsstring)
  | ConsoleLog (message : jsstring)
  | ConsoleError.

Record processedBlog : Type := {
  url : jsstring;
  title : jsstring;
  content : jsstring;
  summary : jsstring;
  urduSummary : jsstring;
  wordCount : nat;
  readTime : nat
}.

Inductive payload : Type :=
  | ErrorBody (error : jsstring)
  | BlogBody (blog : processedBlog).

Record response : Type := {
  body : payload;
  status : N;
  headers : list (jsstring * jsstring)
}.

Definition corsHeaders : list (jsstring * jsstring) :=
  [ (lit "Access-Control-Allow-Origin", lit "*");
    (lit "Access-Control-Allow-Methods", lit "POST, OPTIONS");
    (lit "Access-Control-Allow-Headers", lit "Content-Type") ].

(** [NextResponse.json(body, { status, headers: corsHeaders() })]. *)
Definition jsonResponse (b : payload) (st : N) : response :=
  {| body := b; status := st; headers := corsHeaders |}.

(** A computation of the handler: the events it caused, and its value or
    what it threw. *)
Definition M (A : Type) : Type := list event * (A + exn).

#[global] Instance M_ret : MRet M := fun A a => ([], inl a).

#[global] Instance M_bind : MBind M := fun A B f m =>
  match m with
  | (evs, inl a) => let '(evs', r) := f a in (evs ++ evs', r)
  | (evs, inr e) => (evs, inr e)
  end.

#[global] Instance M_throw : MThrow exn M := fun A e => ([], inr e).

Definition emit (ev : event) : M unit := ([ev], inl tt).

(** [try { m } catch (e) { handler e }]. *)
Definition tryCatch {A : Type} (m : M A) (handler : exn -> M A) : M A :=
  match m with
  | (evs, inr e) => let '(evs', r) := handler e in (evs ++ evs', r)
  | done => done
  end.

Definition fetches (evs : list event) : nat :=
  length (List.filter (fun ev => match ev with AxiosGet _ => true | _ => false end) evs).

Definition urlParses (evs : list event) : nat :=
  length (List.filter (fun ev => match ev with NewURL _ => true | _ => false end) evs).

Section Handler.

(** The collaborators: whether [new URL(s)] returns rather than throws,
    what [axios.get(url, ...)] resolves to or rejects with, the tree
    [cheerio.load(html)] builds, and the dictionary. *)
Variable validURL : jsstring -> bool.
Variable axiosGet : jsstring -> jsstring + exn.
Variable load : jsstring -> list node.
Variable translationDict : gmap jsstring jsstring.

Definition extractTextFromHtml (html : jsstring) : jsstring :=
  extractTextFromDocument (load html).

Definition requestJson (request : requestBody) : M requestBody :=
  match request with
  | BodyRejected => mthrow OtherError
  | _ => mret request
  end.

(** [const { url } = body]. *)
Definition destructureUrl (b : requestBody) : M (option jsstring) :=
  match b with
  | BodyValue url => mret url
  | _ => mthrow OtherError
  end.

Definition newURL (url : jsstring) : M unit :=
  emit (NewURL url) ;;
  if validURL url then mret tt else mthrow OtherError.

Definition get (url : jsstring) : M jsstring :=
  emit (AxiosGet url) ;;
  match axiosGet url with
  | inl html => mret html
  | inr e => mthrow e
  end.

(** The title, with its fallbacks. *)
Definition extractTitle (doc : list node) : jsstring :=
  orElse (trim (text (select (ByTag (lit "title")) doc)))
    (orElse (trim (text (first (select (ByTag (lit "h1")) doc))))
       (orElse
          (default []
             (attr (lit "content")
                (select (ByTagAttr (lit "meta") (lit "property") (lit "og:title")) doc)))
          (lit "Untitled Article"))).

(** The [catch (error)] of the handler. *)
Definition onError (error : exn) : M response :=
  emit ConsoleError ;;
  mret
    match error with
    | AxiosError code responseStatus =>
        if bool_decide (code = Some (lit "ENOTFOUND"))
           || bool_decide (code = Some (lit "ECONNREFUSED"))
        then jsonResponse
               (ErrorBody (lit "Could not connect to the website. Please check the URL.")) 400
        else if bool_decide (responseStatus = Some 404)
        then jsonResponse (ErrorBody (lit "The webpage was not found (404).")) 400
        else if bool_decide (responseStatus = Some 403)
        then jsonResponse
               (ErrorBody
                  (lit "Access forbidden. The website may be blocking automated requests."))
               400
        else if bool_decide (code = Some (lit "ECONNABORTED"))
        then jsonResponse
               (ErrorBody (lit "Request timeout. The website took too long to respond.")) 400
        else jsonResponse (ErrorBody (lit "Failed to process the blog. Please try again.")) 500
    | OtherError =>
        jsonResponse (ErrorBody (lit "Failed to process the blog. Please try again.")) 500
    end.

(** The steps of [POST] after the page has been fetched. *)
Definition processPage (url html : jsstring) : M response :=
  let doc := load html in
  let title := extractTitle doc in
  let content := extractTextFromHtml html in
  if negb (nonEmpty content) || (length content <? 100)%nat then
    mret (jsonResponse
            (ErrorBody (lit "Could not extract sufficient content from the webpage")) 400)
  else
    let summary := generateSummary content in
    if negb (nonEmpty summary) then
      mret (jsonResponse
              (ErrorBody (lit "Could not generate summary from the content")) 400)
    else
      let urduSummary := translateToUrdu translationDict summary in
      let wordCount := length (splitRuns isWhiteSpace content [] false) in
      let readTime := calculateReadTime wordCount in
      let processedBlog :=
        {| url := url;
           title := substring0 200 title;
           content := substring0 5000 content;
           summary := summary;
           urduSummary := urduSummary;
           wordCount := wordCount;
           readTime := readTime |} in
      emit (ConsoleLog (lit "Successfully processed: " ++ title)) ;;
      mret (jsonResponse (BlogBody processedBlog) 200).

Definition POST (request : requestBody) : M response :=
  tryCatch
    (body ← requestJson request;
     url ← destructureUrl body;
     match url with
     | None => mret (jsonResponse (ErrorBody (lit "URL is required")) 400)
     | Some url =>
         if negb (nonEmpty url) then
           mret (jsonResponse (ErrorBody (lit "URL is required")) 400)
         else
           valid ← tryCatch (newURL url ;; mret true) (fun _ => mret false);
           if negb valid then
             mret (jsonResponse (ErrorBody (lit "Invalid URL format")) 400)
           else
             emit (ConsoleLog (lit "Processing URL: " ++ url)) ;;
             html ← get url;
             processPage url html
     end)
    onError.

(** The record a run that passes both gates answers with. *)
Definition blogOf (url html : jsstring) : processedBlog :=
let content := extractTextFromHtml html in
{| url := url;
   title := substring0 200 (extractTitle (load html));
   content := substring0 5000 content;
   summary := generateSummary content;
   urduSummary := translateToUrdu translationDict (generateSummary content);
   wordCount := length (splitRuns isWhiteSpace content [] false);
   readTime := calculateReadTime (length (splitRuns isWhiteSpace content [] false)) |}.

End Handler.

(** ** The page *)

(** The part of the page component that talks to the handler: its state and
    [onSubmit]. *)

(** The state of the page component: [isProcessing], [result], [error],
    [currentStep]. *)
Record pageState : Type := {
  isProcessing : bool;
  result : option payload;
  error : jsstring;
  currentStep : nat
}.

Definition setIsProcessing (b : bool) (st : pageState) : pageState :=
  {| isProcessing := b; result := result st; error := error st;
     currentStep := currentStep st |}.

Definition setError (e : jsstring) (st : pageState) : pageState :=
  {| isProcessing := isProcessing st; result := result st; error := e;
     currentStep := currentStep st |}.

Definition setResult (r : option payload) (st : pageState) : pageState :=
  {| isProcessing := isProcessing st; result := r; error := error st;
     currentStep := currentStep st |}.

Definition setCurrentStep (n : nat) (st : pageState) : pageState :=
  {| isProcessing := isProcessing st; result := result st; error := error st;
     currentStep := n |}.

(** What a rejected promise carries: an [Error] with its message, or
    another value. *)
Inductive rejection : Type :=
  | ErrorObject (message : jsstring)
  | OtherValue.

(** What [await fetch(...)] and then [await response.json()] give: the
    fetch rejects, or it resolves to a response with its status, whose body
    parses to a value or does not. *)
Inductive fetched : Type :=
  | FetchRejected (why : rejection)
  | FetchResolved (responseStatus : N) (json : payload + rejection).

(** [response.ok]: a status from 200 to 299. *)
Definition ok (responseStatus : N) : bool :=
  (200 <=? responseStatus) && (responseStatus <=? 299).

(** [steps.length]. *)
Definition stepsLength : nat := 6.

(** [for (let i = 1; i <= steps.length; i++) { setCurrentStep(i); await ... }]:
    the states the page goes through, the waiting left out. *)
Definition stepProgression (st : pageState) : list pageState :=
  map (λ i, setCurrentStep i st) (seq 1 stepsLength).

(** The body of the [try]: the state it leaves, and what it threw if it
    threw. *)
Definition tryBody (reply : fetched) (st : pageState) : pageState * option rejection :=
  let st := List.last (stepProgression st) st in
  match reply with
  | FetchRejected why => (st, Some why)
  | FetchResolved responseStatus json =>
      if negb (ok responseStatus) then
        (st, Some (ErrorObject (lit "Failed to process blog")))
      else
        match json with
        | inl processedData => (setResult (Some processedData) st, None)
        | inr why => (st, Some why)
        end
  end.

(** [catch (err) { setError(err instanceof Error ? err.message : 'An error occurred') }]. *)
Definition catchError (err : rejection) (st : pageState) : pageState :=
  setError (match err with
            | ErrorObject message => message
            | OtherValue => lit "An error occurred"
            end) st.

(** [onSubmit]: the state of the page when it has finished. *)
Definition onSubmit (reply : fetched) (st : pageState) : pageState :=
  let st := setIsProcessing true st in
  let st := setError [] st in
  let st := setResult None st in
  let st := setCurrentStep 0 st in
  let '(st, thrown) := tryBody reply st in
  let st := match thrown with Some err => catchError err st | None => st end in
  let st := setIsProcessing false st in
  setCurrentStep 0 st.

(** The reply the page gets when the request reaches the handler and the
    response comes back as sent. *)
Definition delivered (resp : response) : fetched :=
  FetchResolved (status resp) (inl (body resp)).

(** ** Notions the statements use *)

(** Case folding for a case-insensitive comparison: letter case is that of
    the ASCII letters, the only ones the phrases of the source are made of. *)
Definition foldCase (s : jsstring) : jsstring := map canonicalize s.

(** [phrase] occurs in [s] as a substring, letter case ignored. *)
Definition occursIgnoringCase (phrase s : jsstring) : Prop :=
  ∃ pre mid post, s = pre ++ mid ++ post ∧ foldCase mid = foldCase phrase.

(** A string that does not begin with white space. *)
Definition startsClean (s : jsstring) : Prop :=
  match s with [] => True | c :: _ => isWhiteSpace c = false end.

(** The names a lowercased word can share with [Object.prototype]. *)
Definition inheritedName (k : jsstring) : Prop :=
  k = lit "constructor" ∨ k = lit "__proto__".

Definition isUpper (c : N) : bool := (65 <=? c) && (c <=? 90).

(** A text cut into words and the gaps between them. *)
Inductive token : Type :=
  | Word (w : jsstring)
  | Gap (g : jsstring).

Definition tokenText (tok : token) : jsstring :=
  match tok with Word w => w | Gap g => g end.

Definition flatten (toks : list token) : jsstring := concat (map tokenText toks).

(** Words are non-empty runs of word characters, gaps non-empty runs of
    other characters, and no word follows a word: every word is a maximal
    run. *)
Fixpoint wellFormed (toks : list token) (afterWord : bool) : Prop :=
  match toks with
  | [] => True
  | Word w :: rest =>
      afterWord = false ∧ w ≠ [] ∧ Forall (λ c, isWordChar c = true) w
      ∧ wellFormed rest true
  | Gap g :: rest =>
      g ≠ [] ∧ Forall (λ c, isWordChar c = false) g ∧ wellFormed rest false
  end.

Definition flushWord (run : jsstring) : list token :=
  match run with [] => [] | _ => [Word (rev run)] end.

(** The words of a text and, one by one, the characters between them. *)
Fixpoint tokenize (s run : jsstring) : list token :=
  match s with
  | [] => flushWord run
  | c :: r =>
      if isWordChar c then tokenize r (c :: run)
      else flushWord run ++ Gap [c] :: tokenize r []
  end.

(** Word substitution: a word whose lowercased form has a non-empty
    replacement becomes that replacement, everything else stays. *)
Definition substitute (dict : gmap jsstring jsstring) (tok : token) : token :=
  match tok with
  | Word w =>
      match dict !! toLowerCase w with
      | Some v => if nonEmpty v then Word v else Word w
      | None => Word w
      end
  | Gap g => Gap g
  end.

(** Word substitution that takes every stored replacement, the empty one
    too. *)
Definition substituteAsStated (dict : gmap jsstring jsstring) (tok : token) : token :=
  match tok with
  | Word w =>
      match dict !! toLowerCase w with
      | Some v => Word v
      | None => Word w
      end
  | Gap g => Gap g
  end.

(** The whitespace-delimited tokens of a text: its maximal runs of
    characters that are not white space. *)
Definition whitespaceTokens (s : jsstring) : list jsstring :=
  matchRuns (λ c, negb (isWhiteSpace c)) s [].

(** Whether a scan that is in a separator or not ends in one. *)
Fixpoint endsInSeparator (s : jsstring) (inSep : bool) : bool :=
  match s with
  | [] => inSep
  | c :: r => endsInSeparator r (isWhiteSpace c)
  end.

(** The failures of a fetch the handler names: an axios error with one of
    three codes, or with a response of status 404 or 403. *)
Definition recognisedFailure (e : exn) : Prop :=
  match e with
  | AxiosError code responseStatus =>
      code = Some (lit "ENOTFOUND") ∨ code = Some (lit "ECONNREFUSED")
      ∨ code = Some (lit "ECONNABORTED")
      ∨ responseStatus = Some 404 ∨ responseStatus = Some 403
  | OtherError => False
  end.

(** White space is single spaces only: no white-space character other than
    the space, no two in a row ([afterSpace]: the character before was one). *)
Fixpoint singleSpaced (s : jsstring) (afterSpace : bool) : bool :=
  match s with
  | [] => true
  | c :: r =>
      if isWhiteSpace c then (c =? 32) && negb afterSpace && singleSpaced r true
      else singleSpaced r false
  end.

(** A string that can stand in a line as it is: not empty, clean at both
    ends, single-spaced. *)
Definition tidy (s : jsstring) : bool :=
  nonEmpty s
  && match s with [] => true | c :: _ => negb (isWhiteSpace c) end
  && match rev s with [] => true | c :: _ => negb (isWhiteSpace c) end
  && singleSpaced s false.

(** ** Sample inputs *)

Definition helloWorldDict : gmap jsstring jsstring :=
  <[lit "hello" := [1587; 1604; 1575; 1605]]>
    (<[lit "world" := [1583; 1606; 1740; 1575]]> ∅).

Definition greetingDict : gmap jsstring jsstring :=
  <[lit "hello" := lit "salam alaikum"]> ∅.

Definition caseChainDict : gmap jsstring jsstring :=
  <[lit "a" := lit "B"]> (<[lit "b" := lit "c"]> ∅).

Definition emptyReplacementDict : gmap jsstring jsstring :=
  <[lit "a" := []]> ∅.

Definition sampleText : jsstring :=
  lit "The quick brown fox jumps over the lazy dog near the river bank. A second sentence follows here with plenty of words in it! Short one.".

Definition samplePage : list node :=
  [ Element (lit "html") []
      [ Element (lit "head") [] [ Element (lit "title") [] [TextNode (lit "Sample")] ];
        Element (lit "body") []
          [ Element (lit "nav") [] [TextNode (lit "Home")];
            Element (lit "article") [] [TextNode sampleText];
            Element (lit "div") [(lit "class", lit "content")] [TextNode (lit "Generic")] ] ] ].

(** A page whose [article] holds nothing. *)
Definition emptyArticlePage : list node :=
  [ Element (lit "html") []
      [ Element (lit "head") [] [];
        Element (lit "body") []
          [ Element (lit "article") [] [];
            Element (lit "div") [(lit "class", lit "content")] [TextNode (lit "x")] ] ] ].

Definition sampleUrl : jsstring := lit "https://example.com/post".

Definition sampleHtml : jsstring := lit "<html>...</html>".

(** Collaborators for the examples: a URL check that asks for the colon of
    a scheme, a fetch that always answers, a parser that always builds
    [samplePage]. *)
Definition hasColon (s : jsstring) : bool := existsb (N.eqb 58) s.

Definition sampleGet (url : jsstring) : jsstring + exn := inl sampleHtml.

Definition sampleLoad (html : jsstring) : list node := samplePage.

(** A page with neither noise nor any of the content containers. *)
Definition plainPage : list node :=
  [ Element (lit "html") []
      [ Element (lit "head") [] [];
        Element (lit "body") []
          [ Element (lit "p") [] [TextNode (lit "Just a paragraph.")] ] ] ].

(** A fetch that always fails with the given error. *)
Definition failingGet (e : exn) (url : jsstring) : jsstring + exn := inr e.

Definition idlePage : pageState :=
  {| isProcessing := false; result := None; error := []; currentStep := 0 |}.

(** A text of a hundred characters and more in which no sentence is longer
    than 30, and a page that holds it. *)
Definition shortSentencesText : jsstring :=
  lit "Short one. Short two. Short three. Short four. Short five. Short six. Short seven. Short eight. Short nine. Short ten.".

Definition shortSentencesPage : list node :=
  [ Element (lit "html") []
      [ Element (lit "head") [] [];
        Element (lit "body") []
          [ Element (lit "article") [] [TextNode shortSentencesText] ] ] ].

Definition shortSentencesLoad (html : jsstring) : list node := shortSentencesPage.

(** ** The scanners on small inputs *)

Example replace_white_space :
  replaceRuns isWhiteSpace (λ _, [space]) (lit "  a" ++ [9; 10; 13] ++ lit "b ") []
  = lit " a b ".
Proof. reflexivity. Qed.

Example split_white_space :
  splitRuns isWhiteSpace (lit " a  b ") [] false = [[]; lit "a"; lit "b"; []].
Proof. reflexivity. Qed.

Example split_empty : splitRuns isWhiteSpace [] [] false = [[]].
Proof. reflexivity. Qed.

Example split_lines :
  splitRuns isLineBreak (lit "a" ++ [13; 10; 10] ++ lit "b" ++ [10]) [] false
  = [lit "a"; lit "b"; []].
Proof. reflexivity. Qed.

Example match_sentences :
  matchSentences (lit "Hi there.. Ok?" ++ [10] ++ lit "x") []
  = [lit "Hi there."; lit " Ok?"; lit "x"].
Proof. reflexivity. Qed.

Example trim_both_ends : trim ([160; 9] ++ lit " a b " ++ [10]) = lit "a b".
Proof. reflexivity. Qed.

Example set_keeps_first :
  arrayFromSet [lit "b"; lit "a"; lit "b"; lit "c"; lit "a"] = [lit "b"; lit "a"; lit "c"].
Proof. reflexivity. Qed.

Example noise_any_case : matchesNoise (lit "my PlaceHolder text") = true.
Proof. reflexivity. Qed.

Example translate_shown :
  translateToUrdu translationDictShown (lit "The sky IS blue")
  = [1740; 1729] ++ lit " sky " ++ [1729; 1746] ++ lit " blue".
Proof. vm_compute. reflexivity. Qed.

Example read_time :
  calculateReadTime 0 = 0%nat ∧ calculateReadTime 200 = 1%nat
  ∧ calculateReadTime 201 = 2%nat.
Proof. split_and!; reflexivity. Qed.

(** ** Strings *)

Section StringFacts.

Lemma lineBreak_whiteSpace c : isLineBreak c = true → isWhiteSpace c = true.
Proof.
  unfold isLineBreak, isWhiteSpace.
  rewrite orb_true_iff, !N.eqb_eq. intros [-> | ->]; reflexivity.
Qed.

Lemma matchesAt_spec pat s :
  matchesAt pat s = true ↔ ∃ mid post, s = mid ++ post ∧ foldCase mid = foldCase pat.
Proof.
  revert s. induction pat as [|p pat IH]; intros s; simpl.
  - split; [intros _; exists [], s; done | done].
  - destruct s as [|c s].
    + split; [done|]. intros (mid & post & Hs & Hf).
      destruct mid; [done|]. discriminate Hs.
    + rewrite andb_true_iff, N.eqb_eq, IH. split.
      * intros (Hc & mid & post & -> & Hf).
        exists (c :: mid), post. simpl. rewrite Hc, Hf. done.
      * intros (mid & post & Hs & Hf). destruct mid as [|m mid]; [done|].
        simpl in Hs, Hf. injection Hs as -> ->. injection Hf as Hc Hf.
        split; [done|]. exists mid, post. done.
Qed.

Lemma testAny_spec pats s :
  testAny pats s = true ↔ ∃ p, p ∈ pats ∧ occursIgnoringCase p s.
Proof.
  induction s as [|c s IH]; simpl.
  - rewrite orb_false_r, existsb_exists. split.
    + intros (p & Hin & Hm). exists p. split; [by apply list_elem_of_In|].
      apply matchesAt_spec in Hm as (mid & post & Hs & Hf).
      exists [], mid, post. done.
    + intros (p & Hin & pre & mid & post & Hs & Hf).
      exists p. split; [by apply list_elem_of_In|].
      apply matchesAt_spec. destruct pre; [|done]. exists mid, post. done.
  - rewrite orb_true_iff, existsb_exists, IH. split.
    + intros [(p & Hin & Hm) | (p & Hin & pre & mid & post & -> & Hf)].
      * exists p. split; [by apply list_elem_of_In|].
        apply matchesAt_spec in Hm as (mid & post & Hs & Hf).
        exists [], mid, post. done.
      * exists p. split; [done|]. exists (c :: pre), mid, post. done.
    + intros (p & Hin & pre & mid & post & Hs & Hf).
      destruct pre as [|c' pre].
      * left. exists p. split; [by apply list_elem_of_In|].
        apply matchesAt_spec. exists mid, post. done.
      * right. simpl in Hs. injection Hs as -> ->.
        exists p. split; [done|]. exists pre, mid, post. done.
Qed.

Lemma testAny_nil pats : Forall (λ p, p ≠ []) pats → testAny pats [] = false.
Proof.
  intros H. simpl. rewrite orb_false_r. apply not_true_is_false.
  rewrite existsb_exists. intros (p & Hin & Hm).
  apply list_elem_of_In in Hin. rewrite Forall_forall in H.
  specialize (H p Hin). destruct p; done.
Qed.

(** Collapsing white space leaves no line break behind. *)
Lemma collapse_no_lineBreak s run :
  Forall (λ c, isLineBreak c = false)
    (replaceRuns isWhiteSpace (λ _, [space]) s run).
Proof.
  revert run. induction s as [|c s IH]; intros run; simpl.
  - destruct run; simpl; repeat constructor.
  - destruct (isWhiteSpace c) eqn:Hc; [apply IH|].
    apply Forall_app. split.
    + destruct run; simpl; repeat constructor.
    + constructor; [|apply IH].
      destruct (isLineBreak c) eqn:Hl; [|done].
      apply lineBreak_whiteSpace in Hl. congruence.
Qed.

(** A string without separators is one piece. *)
Lemma splitRuns_no_separator cls s piece inSep :
  Forall (λ c, cls c = false) s →
  splitRuns cls s piece inSep = [rev piece ++ s].
Proof.
  revert piece inSep. induction s as [|c s IH]; intros piece inSep H; simpl.
  - by rewrite app_nil_r.
  - inversion H as [|? ? Hc Hs]; subst. rewrite Hc, IH by done.
    simpl. by rewrite <- app_assoc.
Qed.

End StringFacts.

Lemma noisePatterns_nonempty : Forall (λ p : jsstring, p ≠ []) noisePatterns.
Proof. repeat constructor; discriminate. Qed.

(** The white-space collapse leaves a single line, so the lines of a content
    are none or one. *)
Lemma contentLines_cases content :
  contentLines content = []
  ∨ ∃ raw, contentLines content = [trim raw] ∧ matchesNoise (trim raw) = false.
Proof.
  unfold contentLines.
  rewrite splitRuns_no_separator by apply collapse_no_lineBreak.
  cbn [map List.filter]. set (raw := rev [] ++ _).
  destruct ((0 <? length (trim raw))%nat && negb (matchesNoise (trim raw))) eqn:Hk;
    [|by left].
  right. exists raw. split; [done|].
  apply andb_true_iff in Hk as [_ Hk]. by apply negb_true_iff in Hk.
Qed.

Lemma normalizeContent_matchesNoise content :
  matchesNoise (normalizeContent content) = false.
Proof.
  unfold normalizeContent.
  destruct (contentLines_cases content) as [-> | (raw & -> & Hn)].
  - apply testAny_nil, noisePatterns_nonempty.
  - done.
Qed.

(** C1: whatever page is loaded, the text the extractor returns contains
    none of the noise phrases ("placeholder", "no-script", the Business
    Insider sentence), letter case ignored.  The collapse of white space
    leaves one line, which is dropped whole when it matches. *)
Theorem extractor_output_free_of_noise load html :
  Forall (λ phrase, ¬ occursIgnoringCase phrase (extractTextFromHtml load html))
    noisePatterns.
Proof.
  apply Forall_forall. intros phrase Hin Hocc.
  assert (matchesNoise (extractTextFromHtml load html) = true) as Hm.
  { apply testAny_spec. by exists phrase. }
  unfold extractTextFromHtml, extractTextFromDocument in Hm.
  by rewrite normalizeContent_matchesNoise in Hm.
Qed.

(** ** Trimming *)

Lemma trimStart_startsClean s : startsClean (trimStart s).
Proof.
  induction s as [|c s IH]; simpl; [done|].
  destruct (isWhiteSpace c) eqn:Hc; [done|]. simpl. done.
Qed.

Lemma trimStart_fixed s : startsClean s → trimStart s = s.
Proof. destruct s as [|c s]; simpl; [done|]. by intros ->. Qed.

Lemma trimStart_snoc s c :
  isWhiteSpace c = false → trimStart (s ++ [c]) = trimStart s ++ [c].
Proof.
  intros Hc. induction s as [|d s IH]; simpl.
  - by rewrite Hc.
  - by destruct (isWhiteSpace d).
Qed.

Lemma trimEnd_startsClean s : startsClean s → startsClean (trimEnd s).
Proof.
  destruct s as [|c s]; [done|]. simpl. intros Hc.
  unfold trimEnd. simpl. rewrite trimStart_snoc by done.
  rewrite rev_app_distr. simpl. done.
Qed.

Lemma trim_startsClean s : startsClean (trim s).
Proof. apply trimEnd_startsClean, trimStart_startsClean. Qed.

Lemma trim_rev_startsClean s : startsClean (rev (trim s)).
Proof.
  unfold trim, trimEnd. rewrite rev_involutive. apply trimStart_startsClean.
Qed.

Lemma trim_fixed s : startsClean s → startsClean (rev s) → trim s = s.
Proof.
  intros H1 H2. unfold trim, trimEnd.
  rewrite (trimStart_fixed s), (trimStart_fixed (rev s)) by done.
  apply rev_involutive.
Qed.

Lemma trim_idempotent s : trim (trim s) = trim s.
Proof. apply trim_fixed; [apply trim_startsClean | apply trim_rev_startsClean]. Qed.

(** ** Arrays *)

Lemma setFrom_sublist seen xs : setFrom seen xs `sublist_of` xs.
Proof.
  revert seen. induction xs as [|x xs IH]; intros seen; simpl; [done|].
  destruct (bool_decide (x ∈ seen)).
  - by apply sublist_cons.
  - by apply sublist_skip.
Qed.

Lemma filter_sublist {A} (f : A → bool) (xs : list A) :
  List.filter f xs `sublist_of` xs.
Proof.
  induction xs as [|x xs IH]; simpl; [done|].
  destruct (f x); [by apply sublist_skip | by apply sublist_cons].
Qed.

Lemma sublist_elem_of {A} (l1 l2 : list A) x :
  l1 `sublist_of` l2 → x ∈ l1 → x ∈ l2.
Proof. intros Hs Hx. by eapply elem_of_sublist. Qed.

Lemma orElse_nil s : orElse s [] = s.
Proof. by destruct s. Qed.

Lemma join_nil_iff sep xs :
  Forall (λ x : jsstring, x ≠ []) xs → (join sep xs = [] ↔ xs = []).
Proof.
  intros H. split; [|by intros ->].
  destruct xs as [|x xs]; [done|]. inversion H as [|? ? Hx _]; subst.
  simpl. destruct xs; [done|]. destruct x; done.
Qed.

(** ** The summariser *)

Lemma uniqueSentences_sublist content :
  uniqueSentences content `sublist_of` map trim (sentences content).
Proof.
  unfold uniqueSentences, arrayFromSet.
  etrans; [apply filter_sublist | apply setFrom_sublist].
Qed.

Lemma uniqueSentences_kept content :
  Forall (λ s, (30 < length s)%nat ∧ matchesNoise s = false ∧ trim s = s)
    (uniqueSentences content).
Proof.
  apply Forall_forall. intros s Hs. split_and!.
  - unfold uniqueSentences in Hs. apply list_elem_of_In, filter_In in Hs as [_ Hs].
    apply andb_true_iff in Hs as [Hs _]. by apply Nat.ltb_lt in Hs.
  - unfold uniqueSentences in Hs. apply list_elem_of_In, filter_In in Hs as [_ Hs].
    apply andb_true_iff in Hs as [_ Hs]. by apply negb_true_iff in Hs.
  - eapply sublist_elem_of in Hs; [|apply uniqueSentences_sublist].
    apply list_elem_of_fmap in Hs as (s0 & -> & _). apply trim_idempotent.
Qed.

Lemma noise_free s :
  matchesNoise s = false →
  Forall (λ phrase, ¬ occursIgnoringCase phrase s) noisePatterns.
Proof.
  intros Hn. apply Forall_forall. intros phrase Hin Hocc.
  assert (matchesNoise s = true) as Hm by (apply testAny_spec; by exists phrase).
  congruence.
Qed.

(** C3: a summary is at most three sentences joined by single spaces; each
    of them is longer than 30 characters once trimmed, contains no noise
    phrase, and they come in the order of the trimmed sentences of the
    content. *)
Theorem summary_shape content :
  ∃ picked : list jsstring,
    generateSummary content = join [space] picked
    ∧ (length picked ≤ 3)%nat
    ∧ Forall (λ s, (30 < length (trim s))%nat
                   ∧ Forall (λ phrase, ¬ occursIgnoringCase phrase s) noisePatterns)
        picked
    ∧ picked `sublist_of` map trim (sentences content).
Proof.
  exists (slice0 3 (uniqueSentences content)). split_and!.
  - unfold generateSummary. apply orElse_nil.
  - unfold slice0. rewrite length_take. lia.
  - unfold slice0. apply Forall_take.
    eapply Forall_impl; [apply uniqueSentences_kept|].
    intros s (Hl & Hn & Ht). simpl. rewrite Ht. split; [done|]. by apply noise_free.
  - unfold slice0. etrans; [apply sublist_take | apply uniqueSentences_sublist].
Qed.

(** ** The content selector *)

Lemma firstMatch_first pre sel post doc :
  Forall (λ s, select s doc = []) pre →
  select sel doc ≠ [] →
  firstMatch (pre ++ sel :: post) doc = text (select sel doc).
Proof.
  intros Hpre Hsel. induction Hpre as [|s pre Hs _ IH]; simpl.
  - destruct (select sel doc); [done|]. done.
  - rewrite Hs. simpl. done.
Qed.

(** C2 (amended): after the noise elements are removed, the first selector
    of the list that matches an element decides alone: the selected content
    is the text of its elements when that text is not empty, and the text of
    [body] when it is empty; with an [article] holding text the content is
    the article's text whatever a [.content] region holds. *)
Theorem first_matching_selector_decides doc pre sel post :
  contentSelectors = pre ++ sel :: post →
  Forall (λ s, select s (remove noiseSelectors doc) = []) pre →
  select sel (remove noiseSelectors doc) ≠ [] →
  let cleaned := remove noiseSelectors doc in
  let chosen :=
    if nonEmpty (text (select sel cleaned)) then text (select sel cleaned)
    else text (select (ByTag (lit "body")) cleaned) in
  selectContent cleaned = chosen
  ∧ extractTextFromDocument doc = normalizeContent chosen.
Proof.
  intros Hsels Hpre Hsel cleaned chosen.
  assert (selectContent cleaned = chosen) as Hc.
  { unfold selectContent. rewrite Hsels.
    rewrite (firstMatch_first pre sel post cleaned Hpre Hsel).
    subst chosen. by destruct (nonEmpty _). }
  split; [done|]. unfold extractTextFromDocument. fold cleaned. by rewrite Hc.
Qed.

(** ** Replacing runs *)

Section Runs.

Variable cls : N → bool.
Variable f : jsstring → jsstring.

Lemma replaceRuns_separator a c b run :
  cls c = false →
  replaceRuns cls f (a ++ c :: b) run
  = replaceRuns cls f a run ++ c :: replaceRuns cls f b [].
Proof.
  intros Hc. revert run. induction a as [|x a IH]; intros run; simpl.
  - by rewrite Hc.
  - destruct (cls x); [apply IH|]. rewrite IH. by rewrite <- app_assoc.
Qed.

Lemma replaceRuns_run w run :
  Forall (λ c, cls c = true) w →
  replaceRuns cls f w run = flushRun f (rev w ++ run).
Proof.
  intros Hw. revert run. induction Hw as [|c w Hc _ IH]; intros run; simpl.
  - done.
  - rewrite Hc, IH. by rewrite <- app_assoc.
Qed.

Lemma replaceRuns_word w :
  w ≠ [] → Forall (λ c, cls c = true) w → replaceRuns cls f w [] = f w.
Proof.
  intros Hne Hw. rewrite replaceRuns_run by done. rewrite app_nil_r.
  unfold flushRun. destruct (rev w) eqn:Hr.
  - apply (f_equal (@rev N)) in Hr. rewrite rev_involutive in Hr. done.
  - rewrite <- Hr. by rewrite rev_involutive.
Qed.

Lemma matchRuns_runs s run :
  Forall (λ c, cls c = true) run →
  Forall (λ w, w ≠ [] ∧ Forall (λ c, cls c = true) w) (matchRuns cls s run).
Proof.
  assert (∀ run, run ≠ [] → Forall (λ c, cls c = true) run →
            rev run ≠ [] ∧ Forall (λ c, cls c = true) (rev run)) as Hrev.
  { intros r Hne Hr. split.
    - intros Hn. apply (f_equal (@rev N)) in Hn. by rewrite rev_involutive in Hn.
    - by apply Forall_rev. }
  revert run. induction s as [|c s IH]; intros run Hrun; simpl.
  - destruct run as [|x run]; [done|]. constructor; [|done]. by apply Hrev.
  - destruct (cls c) eqn:Hc.
    + apply IH. by constructor.
    + destruct run as [|x run]; [by apply IH|].
      constructor; [by apply Hrev | by apply IH].
Qed.

(** Runs the replacer leaves alone: the string comes back as it was. *)
Lemma replaceRuns_unchanged s run :
  Forall (λ w, f w = w) (matchRuns cls s run) →
  replaceRuns cls f s run = rev run ++ s.
Proof.
  revert run. induction s as [|c s IH]; intros run H;
    cbn [replaceRuns matchRuns] in *.
  - rewrite app_nil_r. destruct run as [|x run]; [done|].
    apply Forall_cons in H as [Hw _]. exact Hw.
  - destruct (cls c) eqn:Hc.
    + rewrite IH by done. cbn [rev]. by rewrite <- app_assoc.
    + destruct run as [|x run].
      * cbn. by rewrite IH.
      * apply Forall_cons in H as [Hw Hs]. rewrite IH by done.
        cbn [flushRun]. by rewrite Hw.
Qed.

(** When a second pass leaves every output of the replacer as it is, it
    leaves the whole result as it is. *)
Lemma replaceRuns_twice s run :
  Forall (λ w, replaceRuns cls f (f w) [] = f w) (matchRuns cls s run) →
  replaceRuns cls f (replaceRuns cls f s run) [] = replaceRuns cls f s run.
Proof.
  revert run. induction s as [|c s IH]; intros run H;
    cbn [replaceRuns matchRuns] in *.
  - destruct run as [|x run]; [done|].
    apply Forall_cons in H as [Hw _]. exact Hw.
  - destruct (cls c) eqn:Hc; [by apply IH|].
    rewrite replaceRuns_separator by done.
    destruct run as [|x run].
    + cbn. by rewrite IH.
    + apply Forall_cons in H as [Hw Hs]. rewrite IH by done.
      cbn [flushRun]. by rewrite Hw.
Qed.

End Runs.

(** ** The dictionary object *)

Lemma toLowerCase_no_upper w : forallb (λ c, negb (isUpper c)) (toLowerCase w) = true.
Proof.
  induction w as [|c w IH]; simpl; [done|]. rewrite IH, andb_true_r.
  unfold lowerUnit, isUpper.
  destruct ((65 <=? c) && (c <=? 90)) eqn:H.
  - apply andb_true_iff in H as [H1 H2]. apply N.leb_le in H1, H2.
    apply negb_true_iff, andb_false_iff. right. apply N.leb_gt. lia.
  - by rewrite H.
Qed.

Lemma assoc_Some_key {V} k (kvs : list (jsstring * V)) v :
  assoc k kvs = Some v → k ∈ kvs.*1.
Proof.
  induction kvs as [|[k' v'] kvs IH]; simpl; [done|].
  case_bool_decide as Hk.
  - intros _. subst. apply elem_of_cons. by left.
  - intros H. apply elem_of_cons. right. by apply IH.
Qed.

(** Of the properties of [Object.prototype] only [constructor] and
    [__proto__] are spelled in lower case, so a lowercased word reaches no
    other. *)
Lemma objectPrototype_lowercase w :
  objectPrototype (toLowerCase w) ≠ VUndefined → inheritedName (toLowerCase w).
Proof.
  unfold objectPrototype, inheritedName. intros H.
  destruct (assoc _ objectPrototypeFunctions) eqn:Ha.
  - apply assoc_Some_key in Ha. pose proof (toLowerCase_no_upper w) as Hl.
    simpl in Ha.
    repeat (apply elem_of_cons in Ha as [Ha | Ha];
            [first [ by left | rewrite Ha in Hl; vm_compute in Hl; discriminate Hl ] |]).
    by apply elem_of_nil in Ha.
  - case_bool_decide; [by right | done].
Qed.

Lemma getProperty_plain dict w :
  ¬ inheritedName (toLowerCase w) →
  getProperty dict (toLowerCase w)
  = match dict !! toLowerCase w with Some v => VString v | None => VUndefined end.
Proof.
  intros Hn. unfold getProperty. destruct (dict !! toLowerCase w); [done|].
  destruct (objectPrototype (toLowerCase w)) eqn:Hp; try done;
    exfalso; apply Hn, objectPrototype_lowercase; by rewrite Hp.
Qed.

(** What the replacer does to a word that does not reach the prototype. *)
Lemma translateWord_plain dict w :
  ¬ inheritedName (toLowerCase w) →
  translateWord dict w
  = match dict !! toLowerCase w with
    | Some v => if nonEmpty v then v else w
    | None => w
    end.
Proof.
  intros Hn. unfold translateWord. rewrite getProperty_plain by done.
  destruct (dict !! toLowerCase w); done.
Qed.

(** C4 (amended): translating twice is translating once when no word inside
    a replacement value is, lowercased, a key of the dictionary, and neither
    the text nor a replacement value holds a word that lowercases to
    [constructor] or [__proto__]. *)
Theorem translate_twice (dict : gmap jsstring jsstring) (t : jsstring) :
  (∀ k v, dict !! k = Some v →
     Forall (λ w, dict !! toLowerCase w = None ∧ ¬ inheritedName (toLowerCase w))
       (matchRuns isWordChar v [])) →
  Forall (λ w, ¬ inheritedName (toLowerCase w)) (matchRuns isWordChar t []) →
  translateToUrdu dict (translateToUrdu dict t) = translateToUrdu dict t.
Proof.
  intros Hvalues Htext. unfold translateToUrdu. apply replaceRuns_twice.
  pose proof (matchRuns_runs isWordChar t [] (Forall_nil_2 _)) as Hruns.
  rewrite Forall_forall in Htext, Hruns. apply Forall_forall. intros w Hw.
  destruct (Hruns w Hw) as [Hne Hword]. rewrite translateWord_plain by auto.
  destruct (dict !! toLowerCase w) as [v|] eqn:Hd.
  - destruct (nonEmpty v) eqn:Hv.
    + rewrite replaceRuns_unchanged; [done|].
      eapply Forall_impl; [apply (Hvalues _ _ Hd)|].
      intros w' [Hnone Hn]. simpl. rewrite translateWord_plain by done.
      by rewrite Hnone.
    + rewrite replaceRuns_word by done. rewrite translateWord_plain by auto.
      by rewrite Hd, Hv.
  - rewrite replaceRuns_word by done. rewrite translateWord_plain by auto.
    by rewrite Hd.
Qed.

(** ** Words and gaps *)

Lemma rev_nonempty {A} (l : list A) : l ≠ [] → rev l ≠ [].
Proof.
  intros Hne Hn. apply (f_equal (@rev A)) in Hn. by rewrite rev_involutive in Hn.
Qed.

Lemma flatten_app a b : flatten (a ++ b) = flatten a ++ flatten b.
Proof. unfold flatten. by rewrite map_app, concat_app. Qed.

Lemma tokenize_flatten s run : flatten (tokenize s run) = rev run ++ s.
Proof.
  revert run. induction s as [|c s IH]; intros run; cbn [tokenize].
  - rewrite app_nil_r. destruct run; [done|]. unfold flatten. cbn. by rewrite app_nil_r.
  - destruct (isWordChar c).
    + rewrite IH. cbn [rev]. by rewrite <- app_assoc.
    + rewrite flatten_app. f_equal.
      * destruct run; [done|]. unfold flatten. cbn. by rewrite app_nil_r.
      * unfold flatten in *. cbn. f_equal. apply (IH []).
Qed.

Lemma tokenize_wellFormed s run :
  Forall (λ c, isWordChar c = true) run → wellFormed (tokenize s run) false.
Proof.
  revert run. induction s as [|c s IH]; intros run Hrun; cbn [tokenize].
  - destruct run as [|x run]; [done|]. cbn -[rev].
    split_and!; [done | by apply rev_nonempty | by apply Forall_rev | done].
  - destruct (isWordChar c) eqn:Hc.
    + apply IH. by constructor.
    + assert (wellFormed (Gap [c] :: tokenize s []) false) as Hgap.
      { cbn. split_and!; [done | by repeat constructor | by apply IH]. }
      destruct run as [|x run]; [done|].
      change (wellFormed (Word (rev (x :: run)) :: Gap [c] :: tokenize s []) false).
      split; [done|]. split; [by apply rev_nonempty|].
      split; [by apply Forall_rev | exact Hgap].
Qed.

Lemma translate_tokenize dict s run :
  Forall (λ w, ¬ inheritedName (toLowerCase w)) (matchRuns isWordChar s run) →
  replaceRuns isWordChar (translateWord dict) s run
  = flatten (map (substitute dict) (tokenize s run)).
Proof.
  assert (∀ run, run ≠ [] → ¬ inheritedName (toLowerCase (rev run)) →
            flushRun (translateWord dict) run
            = flatten (map (substitute dict) (flushWord run))) as Hflush.
  { intros r Hne Hn. destruct r as [|x r]; [done|]. cbn [flushRun flushWord map substitute].
    rewrite translateWord_plain by done. unfold flatten.
    destruct (dict !! _) as [v|]; [destruct (nonEmpty v)|]; cbn; by rewrite app_nil_r. }
  revert run. induction s as [|c s IH]; intros run H;
    cbn [replaceRuns matchRuns tokenize] in *.
  - destruct run as [|x run]; [done|]. apply Forall_cons in H as [Hw _].
    by apply Hflush.
  - destruct (isWordChar c) eqn:Hc; [by apply IH|].
    rewrite map_app, flatten_app. destruct run as [|x run].
    + cbn [flushRun flushWord map app]. rewrite IH by done. done.
    + apply Forall_cons in H as [Hw Hs]. rewrite Hflush by done.
      f_equal. rewrite IH by done. done.
Qed.

(** C5 (amended): a text none of whose words lowercases to [constructor] or
    [__proto__] is translated word by word: a maximal run of word characters
    whose lowercased form has a non-empty replacement becomes that
    replacement as stored, every other run stays, and the characters between
    the runs are copied in place; "Hello, world!" becomes the two Urdu words
    with ", " between them and "!" after them. *)
Theorem translate_word_by_word (dict : gmap jsstring jsstring) (t : jsstring) :
  Forall (λ w, ¬ inheritedName (toLowerCase w)) (matchRuns isWordChar t []) →
  let toks := tokenize t [] in
  wellFormed toks false
  ∧ flatten toks = t
  ∧ translateToUrdu dict t = flatten (map (substitute dict) toks)
  ∧ translateToUrdu helloWorldDict (lit "Hello, world!")
    = [1587; 1604; 1575; 1605] ++ lit ", " ++ [1583; 1606; 1740; 1575] ++ lit "!".
Proof.
  intros H toks. split_and!.
  - by apply tokenize_wellFormed.
  - apply (tokenize_flatten t []).
  - by apply translate_tokenize.
  - vm_compute. reflexivity.
Qed.

(** ** Counting words *)

Lemma endsInSeparator_snoc s c inSep :
  endsInSeparator (s ++ [c]) inSep = isWhiteSpace c.
Proof. revert inSep. induction s as [|d s IH]; intros inSep; simpl; [done|apply IH]. Qed.

Lemma endsInSeparator_clean s inSep :
  s ≠ [] → startsClean (rev s) → endsInSeparator s inSep = false.
Proof.
  intros Hne Hc. destruct (rev s) as [|x l] eqn:Hr.
  - by apply rev_nonempty in Hne.
  - apply (f_equal (@rev N)) in Hr. rewrite rev_involutive in Hr. subst s.
    simpl. by rewrite endsInSeparator_snoc.
Qed.

(** The pieces of a split are the tokens, and one more empty piece when the
    text ends in white space. *)
Lemma splitRuns_length s piece inSep :
  (inSep = true → piece = []) → (inSep = false → piece ≠ []) →
  length (splitRuns isWhiteSpace s piece inSep)
  = (length (matchRuns (λ c, negb (isWhiteSpace c)) s piece)
     + if endsInSeparator s inSep then 1 else 0)%nat.
Proof.
  revert piece inSep. induction s as [|c s IH]; intros piece inSep Ht Hf;
    cbn [splitRuns matchRuns endsInSeparator].
  - destruct inSep.
    + by rewrite Ht.
    + destruct piece; [by destruct Hf|]. done.
  - destruct (isWhiteSpace c) eqn:Hc; cbn [negb].
    + destruct inSep.
      * rewrite (Ht eq_refl). by apply IH.
      * destruct piece as [|x piece]; [by destruct Hf|].
        cbn [length]. rewrite (IH [] true) by done. lia.
    + by apply IH.
Qed.

Lemma split_counts_tokens s :
  s ≠ [] → startsClean s → startsClean (rev s) →
  length (splitRuns isWhiteSpace s [] false) = length (whitespaceTokens s).
Proof.
  intros Hne Hs Hr. unfold whitespaceTokens.
  pose proof (endsInSeparator_clean s true Hne Hr) as He.
  destruct s as [|c s]; [done|]. simpl in Hs.
  cbn [splitRuns matchRuns endsInSeparator] in *.
  rewrite Hs in *. cbn [negb]. rewrite splitRuns_length by done.
  rewrite He. lia.
Qed.

(** ** The handler *)

Lemma normalizeContent_clean content :
  startsClean (normalizeContent content)
  ∧ startsClean (rev (normalizeContent content)).
Proof.
  unfold normalizeContent.
  destruct (contentLines_cases content) as [-> | (raw & -> & _)].
  - done.
  - split; [apply trim_startsClean | apply trim_rev_startsClean].
Qed.

Section HandlerFacts.

Variable validURL : jsstring → bool.
Variable axiosGet : jsstring → jsstring + exn.
Variable load : jsstring → list node.
Variable translationDict : gmap jsstring jsstring.

Lemma processPage_cases url html :
  processPage load translationDict url html
  = if (length (extractTextFromHtml load html) <? 100)%nat
    then ([], inl (jsonResponse
                     (ErrorBody (lit "Could not extract sufficient content from the webpage"))
                     400))
    else if nonEmpty (generateSummary (extractTextFromHtml load html))
    then ([ConsoleLog (lit "Successfully processed: " ++ extractTitle (load html))],
          inl (jsonResponse (BlogBody (blogOf load translationDict url html)) 200))
    else ([], inl (jsonResponse
                     (ErrorBody (lit "Could not generate summary from the content")) 400)).
Proof.
  unfold processPage.
  set (content := extractTextFromHtml load html).
  assert (negb (nonEmpty content) || (length content <? 100)%nat
          = (length content <? 100)%nat) as ->.
  { destruct content; done. }
  destruct (length content <? 100)%nat; [done|].
  destruct (nonEmpty (generateSummary content)); done.
Qed.

Lemma processPage_returns url html :
  ∃ evs resp, processPage load translationDict url html = (evs, inl resp).
Proof.
  rewrite processPage_cases.
  destruct (length _ <? 100)%nat; [by eexists _, _|].
  destruct (nonEmpty _); by eexists _, _.
Qed.

Lemma POST_fetched url html :
  nonEmpty url = true → validURL url = true → axiosGet url = inl html →
  POST validURL axiosGet load translationDict (BodyValue (Some url))
  = ([NewURL url; ConsoleLog (lit "Processing URL: " ++ url); AxiosGet url]
       ++ (processPage load translationDict url html).1,
     (processPage load translationDict url html).2).
Proof.
  intros Hne Hvalid Hget.
  destruct (processPage_returns url html) as (evs & resp & Hp).
  unfold POST, requestJson, destructureUrl, newURL, get, emit, tryCatch.
  cbn. rewrite Hne, Hvalid. cbn. rewrite Hget. cbn. rewrite Hp. done.
Qed.

Lemma POST_no_url :
  POST validURL axiosGet load translationDict (BodyValue None)
  = ([], inl (jsonResponse (ErrorBody (lit "URL is required")) 400)).
Proof. reflexivity. Qed.

Lemma POST_empty_url :
  POST validURL axiosGet load translationDict (BodyValue (Some []))
  = ([], inl (jsonResponse (ErrorBody (lit "URL is required")) 400)).
Proof. reflexivity. Qed.

Lemma POST_invalid_url url :
  nonEmpty url = true → validURL url = false →
  POST validURL axiosGet load translationDict (BodyValue (Some url))
  = ([NewURL url], inl (jsonResponse (ErrorBody (lit "Invalid URL format")) 400)).
Proof.
  intros Hne Hvalid.
  unfold POST, requestJson, destructureUrl, newURL, get, emit, tryCatch.
  cbn. rewrite Hne, Hvalid. done.
Qed.

(** A body that is [null] has nothing to destructure: the [TypeError] goes
    to the handler's [catch]. *)
Lemma POST_null_body :
  POST validURL axiosGet load translationDict BodyNull
  = ([ConsoleError],
     inl (jsonResponse (ErrorBody (lit "Failed to process the blog. Please try again.")) 500)).
Proof. reflexivity. Qed.

(** A failed fetch is answered from the [catch], after the one attempt. *)
Lemma POST_fetch_failed url e :
  nonEmpty url = true → validURL url = true → axiosGet url = inr e →
  ∃ resp,
    POST validURL axiosGet load translationDict (BodyValue (Some url))
    = ([NewURL url; ConsoleLog (lit "Processing URL: " ++ url); AxiosGet url; ConsoleError],
       inl resp)
    ∧ ∃ msg, body resp = ErrorBody msg.
Proof.
  intros Hne Hvalid Hget.
  unfold POST, requestJson, destructureUrl, newURL, get, emit, tryCatch.
  cbn. rewrite Hne, Hvalid. cbn. rewrite Hget. cbn.
  eexists. split; [reflexivity|].
  destruct e as [code st|]; cbn; [|by eexists].
  repeat (case_bool_decide; cbn; try by eexists).
Qed.

End HandlerFacts.


Lemma jsonResponse_inj {E} b1 b2 s1 s2 :
  @inl response E (jsonResponse b1 s1) = inl (jsonResponse b2 s2) → b1 = b2 ∧ s1 = s2.
Proof. unfold jsonResponse. by intros [= -> ->]. Qed.

Lemma insufficient_not_noSummary :
  lit "Could not generate summary from the content"
  ≠ lit "Could not extract sufficient content from the webpage".
Proof. vm_compute. discriminate. Qed.

(** ** The claims *)

Section Claims.

Variable validURL : jsstring → bool.
Variable axiosGet : jsstring → jsstring + exn.
Variable load : jsstring → list node.
Variable translationDict : gmap jsstring jsstring.

(** C6: once the page is fetched, the handler answers 400 "Could not extract
    sufficient content from the webpage" exactly when the extracted content
    is shorter than 100 characters, and then answers with no blog. *)
Theorem extraction_error_iff_short url html :
  nonEmpty url = true → validURL url = true → axiosGet url = inl html →
  let outcome := (POST validURL axiosGet load translationDict (BodyValue (Some url))).2 in
  (outcome
   = inl (jsonResponse
            (ErrorBody (lit "Could not extract sufficient content from the webpage")) 400)
   ↔ (length (extractTextFromHtml load html) < 100)%nat)
  ∧ ((length (extractTextFromHtml load html) < 100)%nat →
     ∀ resp blog, outcome = inl resp → body resp ≠ BlogBody blog).
Proof.
  intros Hne Hvalid Hget outcome. subst outcome.
  rewrite (POST_fetched _ _ _ _ url html) by done.
  rewrite processPage_cases.
  destruct (length _ <? 100)%nat eqn:Hlen; cbn [snd].
  - apply Nat.ltb_lt in Hlen. split; [done|].
    intros _ resp blog [= <-]. done.
  - apply Nat.ltb_ge in Hlen. split.
    + split; [|lia].
      destruct (nonEmpty (generateSummary _)); cbn [snd];
        intros [Hb _]%jsonResponse_inj.
      * discriminate Hb.
      * apply (f_equal (λ p, match p with ErrorBody m => m | _ => [] end)) in Hb.
        cbv beta iota in Hb. by apply insufficient_not_noSummary in Hb.
    + lia.
Qed.

Lemma generateSummary_empty_iff content :
  nonEmpty (generateSummary content) = false ↔ uniqueSentences content = [].
Proof.
  unfold generateSummary. rewrite orElse_nil.
  assert (Forall (λ x : jsstring, x ≠ []) (slice0 3 (uniqueSentences content))) as Hne.
  { unfold slice0. apply Forall_take.
    eapply Forall_impl; [apply uniqueSentences_kept|].
    intros s (Hl & _) ->. simpl in Hl. lia. }
  pose proof (join_nil_iff [space] _ Hne) as Hj.
  split.
  - intros He. destruct (join _ _) eqn:Hjoin; [|done].
    destruct Hj as [Hj _]. specialize (Hj eq_refl).
    unfold slice0 in Hj. destruct (uniqueSentences content); done.
  - intros ->. done.
Qed.

(** C8 (amended): a string [new URL] rejects is answered with status 400 and
    without any fetch; the message is "Invalid URL format" when the string
    is not empty and "URL is required" when it is. *)
Theorem malformed_url_rejected_without_fetch url :
  validURL url = false →
  ∃ evs,
    POST validURL axiosGet load translationDict (BodyValue (Some url))
    = (evs,
       inl (jsonResponse
              (ErrorBody (if nonEmpty url then lit "Invalid URL format"
                          else lit "URL is required")) 400))
    ∧ fetches evs = 0%nat.
Proof.
  intros Hvalid. destruct (nonEmpty url) eqn:Hne.
  - exists [NewURL url]. split; [by apply POST_invalid_url | done].
  - exists []. destruct url; [|done]. split; [apply POST_empty_url | done].
Qed.

(** C9: the word count of a blog the handler answers with is the number of
    whitespace-delimited tokens of the extracted content. *)
Theorem wordCount_counts_tokens url html resp blog :
  nonEmpty url = true → validURL url = true → axiosGet url = inl html →
  (POST validURL axiosGet load translationDict (BodyValue (Some url))).2 = inl resp →
  body resp = BlogBody blog →
  wordCount blog = length (whitespaceTokens (extractTextFromHtml load html)).
Proof.
  intros Hne Hvalid Hget Hout Hbody.
  rewrite (POST_fetched _ _ _ _ url html) in Hout by done.
  rewrite processPage_cases in Hout.
  destruct (length _ <? 100)%nat eqn:Hlen; cbn [snd] in Hout.
  { injection Hout as <-. done. }
  destruct (nonEmpty (generateSummary _)); cbn [snd] in Hout.
  2: { injection Hout as <-. done. }
  injection Hout as <-. cbn in Hbody. injection Hbody as <-.
  cbn [wordCount blogOf]. apply Nat.ltb_ge in Hlen.
  unfold extractTextFromHtml, extractTextFromDocument in *.
  destruct (normalizeContent_clean (selectContent (remove noiseSelectors (load html))))
    as [H1 H2].
  apply split_counts_tokens; [|done|done].
  intros He. rewrite He in Hlen. simpl in Hlen. lia.
Qed.

End Claims.

(** ** The claims on concrete inputs *)

(** On [samplePage] the [article] is the first match and holds text. *)
Lemma first_matching_selector_decides_witness :
  contentSelectors = [] ++ ByTag (lit "article") :: tail contentSelectors
  ∧ Forall (λ s, select s (remove noiseSelectors samplePage) = []) []
  ∧ select (ByTag (lit "article")) (remove noiseSelectors samplePage) ≠ []
  ∧ selectContent (remove noiseSelectors samplePage) = sampleText
  ∧ extractTextFromDocument samplePage = normalizeContent sampleText.
Proof.
  assert (select (ByTag (lit "article")) (remove noiseSelectors samplePage) ≠ []) as Hsel.
  { vm_compute. discriminate. }
  split; [reflexivity|]. split; [constructor|]. split; [exact Hsel|].
  exact (first_matching_selector_decides samplePage [] (ByTag (lit "article"))
           (tail contentSelectors) eq_refl (Forall_nil_2 _) Hsel).
Defined.

(** A page with an empty [article] and a [.content] region holding "x": the
    two texts differ, nothing is removed as noise, and the selected content
    is the text of [body], which here is the text of the [.content] region
    and not the article's. *)
Lemma empty_article_falls_back_to_body :
  select (ByTag (lit "article")) emptyArticlePage ≠ []
  ∧ select (ByClass (lit "content")) emptyArticlePage ≠ []
  ∧ text (select (ByTag (lit "article")) emptyArticlePage)
    ≠ text (select (ByClass (lit "content")) emptyArticlePage)
  ∧ remove noiseSelectors emptyArticlePage = emptyArticlePage
  ∧ selectContent (remove noiseSelectors emptyArticlePage)
    = text (select (ByClass (lit "content")) emptyArticlePage)
  ∧ selectContent (remove noiseSelectors emptyArticlePage)
    ≠ text (select (ByTag (lit "article")) emptyArticlePage).
Proof. vm_compute. split_and!; (reflexivity || discriminate). Qed.

Lemma greetingDict_values k v :
  greetingDict !! k = Some v →
  Forall (λ w, greetingDict !! toLowerCase w = None ∧ ¬ inheritedName (toLowerCase w))
    (matchRuns isWordChar v []).
Proof.
  unfold greetingDict. intros [[<- <-] | [_ H]]%lookup_insert_Some.
  - repeat (apply Forall_cons; split); [| |apply Forall_nil_2];
      (split; [vm_compute; reflexivity | intros [H|H]; vm_compute in H; discriminate H]).
  - by rewrite lookup_empty in H.
Qed.

Lemma greeting_text_words :
  Forall (λ w, ¬ inheritedName (toLowerCase w))
    (matchRuns isWordChar (lit "Hello, hello!") []).
Proof.
  repeat (apply Forall_cons; split); [| |apply Forall_nil_2];
    (intros [H|H]; vm_compute in H; discriminate H).
Qed.

(** With "hello" replaced by "salam alaikum", a second pass changes nothing. *)
Lemma translate_twice_witness :
  (∀ k v, greetingDict !! k = Some v →
     Forall (λ w, greetingDict !! toLowerCase w = None ∧ ¬ inheritedName (toLowerCase w))
       (matchRuns isWordChar v []))
  ∧ Forall (λ w, ¬ inheritedName (toLowerCase w))
      (matchRuns isWordChar (lit "Hello, hello!") [])
  ∧ translateToUrdu greetingDict (translateToUrdu greetingDict (lit "Hello, hello!"))
    = translateToUrdu greetingDict (lit "Hello, hello!").
Proof.
  split; [exact greetingDict_values|]. split; [exact greeting_text_words|].
  exact (translate_twice greetingDict (lit "Hello, hello!") greetingDict_values
           greeting_text_words).
Defined.

(** In the dictionary [a ↦ "B", b ↦ "c"] no replacement value is a key, yet
    "a" becomes "B" and then "c": the lookup lowercases "B". *)
Lemma replacement_chain_through_case :
  (∀ k v, caseChainDict !! k = Some v → caseChainDict !! v = None)
  ∧ translateToUrdu caseChainDict (lit "a") = lit "B"
  ∧ translateToUrdu caseChainDict (translateToUrdu caseChainDict (lit "a")) = lit "c"
  ∧ translateToUrdu caseChainDict (translateToUrdu caseChainDict (lit "a"))
    ≠ translateToUrdu caseChainDict (lit "a").
Proof.
  split_and!.
  - unfold caseChainDict. intros k v [[<- <-] | [_ H]]%lookup_insert_Some.
    + vm_compute. reflexivity.
    + apply lookup_insert_Some in H as [[<- <-] | [_ H]].
      * vm_compute. reflexivity.
      * by rewrite lookup_empty in H.
  - vm_compute. reflexivity.
  - vm_compute. reflexivity.
  - vm_compute. discriminate.
Qed.

Lemma hello_world_words :
  Forall (λ w, ¬ inheritedName (toLowerCase w))
    (matchRuns isWordChar (lit "Hello, world!") []).
Proof.
  repeat (apply Forall_cons; split); [| |apply Forall_nil_2];
    (intros [H|H]; vm_compute in H; discriminate H).
Qed.

(** "Hello, world!" under the two-word dictionary. *)
Lemma translate_word_by_word_witness :
  Forall (λ w, ¬ inheritedName (toLowerCase w))
    (matchRuns isWordChar (lit "Hello, world!") [])
  ∧ wellFormed (tokenize (lit "Hello, world!") []) false
  ∧ flatten (tokenize (lit "Hello, world!") []) = lit "Hello, world!"
  ∧ translateToUrdu helloWorldDict (lit "Hello, world!")
    = flatten (map (substitute helloWorldDict) (tokenize (lit "Hello, world!") []))
  ∧ translateToUrdu helloWorldDict (lit "Hello, world!")
    = [1587; 1604; 1575; 1605] ++ lit ", " ++ [1583; 1606; 1740; 1575] ++ lit "!".
Proof.
  split; [exact hello_world_words|].
  exact (translate_word_by_word helloWorldDict (lit "Hello, world!") hello_world_words).
Defined.

(** A key with the empty string as its replacement: the word is kept, not
    replaced by the stored empty replacement. *)
Lemma empty_replacement_keeps_word :
  wellFormed [Word (lit "a")] false
  ∧ emptyReplacementDict !! toLowerCase (lit "a") = Some []
  ∧ translateToUrdu emptyReplacementDict (flatten [Word (lit "a")]) = lit "a"
  ∧ flatten (map (substituteAsStated emptyReplacementDict) [Word (lit "a")]) = []
  ∧ translateToUrdu emptyReplacementDict (flatten [Word (lit "a")])
    ≠ flatten (map (substituteAsStated emptyReplacementDict) [Word (lit "a")]).
Proof.
  split_and!.
  - cbn. split_and!; [done | done | by repeat constructor | done].
  - vm_compute. reflexivity.
  - vm_compute. reflexivity.
  - vm_compute. reflexivity.
  - vm_compute. discriminate.
Qed.

(** A word that lowercases to [constructor] reaches [Object.prototype]: the
    lookup finds the function [Object], and the word is replaced by its
    source text. *)
Lemma constructor_is_rewritten :
  translateToUrdu translationDictShown (lit "The constructor is called")
  = [1740; 1729] ++ lit " function Object() { [native code] } " ++ [1729; 1746]
    ++ lit " called".
Proof. vm_compute. reflexivity. Qed.

Lemma sample_reaches_page :
  nonEmpty sampleUrl = true ∧ hasColon sampleUrl = true
  ∧ sampleGet sampleUrl = inl sampleHtml.
Proof. split_and!; reflexivity. Qed.

Lemma sample_long_enough :
  (100 ≤ length (extractTextFromHtml sampleLoad sampleHtml))%nat.
Proof. vm_compute. lia. Qed.

Lemma sample_outcome :
  (POST hasColon sampleGet sampleLoad translationDictShown (BodyValue (Some sampleUrl))).2
  = inl (jsonResponse
           (BlogBody (blogOf sampleLoad translationDictShown sampleUrl sampleHtml)) 200).
Proof. vm_compute. reflexivity. Qed.

(** The sample page is fetched and its content decides the answer. *)
Lemma extraction_error_iff_short_witness :
  nonEmpty sampleUrl = true ∧ hasColon sampleUrl = true
  ∧ sampleGet sampleUrl = inl sampleHtml
  ∧ ((POST hasColon sampleGet sampleLoad translationDictShown
        (BodyValue (Some sampleUrl))).2
     = inl (jsonResponse
              (ErrorBody (lit "Could not extract sufficient content from the webpage")) 400)
     ↔ (length (extractTextFromHtml sampleLoad sampleHtml) < 100)%nat).
Proof.
  destruct sample_reaches_page as (H1 & H2 & H3).
  split; [exact H1|]. split; [exact H2|]. split; [exact H3|].
  exact (proj1 (extraction_error_iff_short hasColon sampleGet sampleLoad
                  translationDictShown sampleUrl sampleHtml H1 H2 H3)).
Defined.

(** "not a url" has no scheme. *)
Lemma malformed_url_rejected_without_fetch_witness :
  hasColon (lit "not a url") = false
  ∧ ∃ evs,
      POST hasColon sampleGet sampleLoad translationDictShown
        (BodyValue (Some (lit "not a url")))
      = (evs, inl (jsonResponse (ErrorBody (lit "Invalid URL format")) 400))
      ∧ fetches evs = 0%nat.
Proof.
  split; [reflexivity|].
  exact (malformed_url_rejected_without_fetch hasColon sampleGet sampleLoad
           translationDictShown (lit "not a url") eq_refl).
Defined.

(** The empty string is no URL, and the answer to it is "URL is required",
    not "Invalid URL format". *)
Lemma empty_url_is_not_invalid_format :
  hasColon [] = false
  ∧ POST hasColon sampleGet sampleLoad translationDictShown (BodyValue (Some []))
    = ([], inl (jsonResponse (ErrorBody (lit "URL is required")) 400))
  ∧ (POST hasColon sampleGet sampleLoad translationDictShown (BodyValue (Some []))).2
    ≠ inl (jsonResponse (ErrorBody (lit "Invalid URL format")) 400).
Proof. split_and!; [reflexivity | reflexivity |]. vm_compute. discriminate. Qed.

Lemma wordCount_counts_tokens_witness :
  nonEmpty sampleUrl = true ∧ hasColon sampleUrl = true
  ∧ sampleGet sampleUrl = inl sampleHtml
  ∧ (POST hasColon sampleGet sampleLoad translationDictShown
       (BodyValue (Some sampleUrl))).2
    = inl (jsonResponse
             (BlogBody (blogOf sampleLoad translationDictShown sampleUrl sampleHtml)) 200)
  ∧ wordCount (blogOf sampleLoad translationDictShown sampleUrl sampleHtml)
    = length (whitespaceTokens (extractTextFromHtml sampleLoad sampleHtml)).
Proof.
  destruct sample_reaches_page as (H1 & H2 & H3).
  split; [exact H1|]. split; [exact H2|]. split; [exact H3|].
  split; [exact sample_outcome|].
  exact (wordCount_counts_tokens hasColon sampleGet sampleLoad translationDictShown
           sampleUrl sampleHtml _ _ H1 H2 H3 sample_outcome eq_refl).
Defined.

(** ** Reading time *)

Lemma calculateReadTime_bounds n :
  (n ≤ 200 * calculateReadTime n)%nat
  ∧ (∀ m, n ≤ 200 * m → calculateReadTime n ≤ m)%nat.
Proof.
  unfold calculateReadTime.
  pose proof (Nat.div_mod_eq n 200) as Hd.
  pose proof (Nat.mod_upper_bound n 200 ltac:(lia)) as Hm.
  destruct (n mod 200 =? 0)%nat eqn:Hz.
  - apply Nat.eqb_eq in Hz. split; [lia|]. intros m Hle. lia.
  - apply Nat.eqb_neq in Hz. split; [lia|]. intros m Hle. lia.
Qed.

(** X2: more words never give a shorter reading time. *)
Theorem readTime_monotone n m :
  (n ≤ m)%nat → (calculateReadTime n ≤ calculateReadTime m)%nat.
Proof.
  intros Hle. destruct (calculateReadTime_bounds n) as [_ Hleast].
  destruct (calculateReadTime_bounds m) as [Hup _].
  apply Hleast. lia.
Qed.

(** ** The handler, case by case *)

Section HandlerCases.

Variable validURL : jsstring → bool.
Variable axiosGet : jsstring → jsstring + exn.
Variable load : jsstring → list node.
Variable translationDict : gmap jsstring jsstring.

Lemma onError_returns e : ∃ resp, onError e = ([ConsoleError], inl resp)
  ∧ headers resp = corsHeaders
  ∧ (∃ msg, body resp = ErrorBody msg)
  ∧ (status resp = 400 ∨ status resp = 500).
Proof.
  unfold onError, emit. cbn.
  destruct e as [code st|]; cbn.
  - repeat (case_bool_decide; cbn);
      (eexists; split; [reflexivity|]; split; [done|]; split; [by eexists|]; auto).
  - eexists; split; [reflexivity|]; split; [done|]; split; [by eexists|]; auto.
Qed.

Lemma POST_rejected_body :
  POST validURL axiosGet load translationDict BodyRejected
  = ([ConsoleError],
     inl (jsonResponse (ErrorBody (lit "Failed to process the blog. Please try again.")) 500)).
Proof. reflexivity. Qed.

Lemma POST_fetch_error url e :
  nonEmpty url = true → validURL url = true → axiosGet url = inr e →
  POST validURL axiosGet load translationDict (BodyValue (Some url))
  = ([NewURL url; ConsoleLog (lit "Processing URL: " ++ url); AxiosGet url; ConsoleError],
     (onError e).2).
Proof.
  intros Hne Hvalid Hget.
  unfold POST, requestJson, destructureUrl, newURL, get, emit, tryCatch.
  cbn. rewrite Hne, Hvalid. cbn. rewrite Hget.
  destruct e as [code st|]; cbn; [|done].
  repeat (case_bool_decide; cbn; try done).
Qed.

(** Every request falls in one of these cases. *)
Lemma POST_cases request :
  POST validURL axiosGet load translationDict request
  = match request with
    | BodyRejected | BodyNull =>
        ([ConsoleError],
         inl (jsonResponse
                (ErrorBody (lit "Failed to process the blog. Please try again.")) 500))
    | BodyValue None =>
        ([], inl (jsonResponse (ErrorBody (lit "URL is required")) 400))
    | BodyValue (Some url) =>
        if nonEmpty url then
          if validURL url then
            match axiosGet url with
            | inl html =>
                ([NewURL url; ConsoleLog (lit "Processing URL: " ++ url); AxiosGet url]
                   ++ (processPage load translationDict url html).1,
                 (processPage load translationDict url html).2)
            | inr e =>
                ([NewURL url; ConsoleLog (lit "Processing URL: " ++ url); AxiosGet url;
                  ConsoleError],
                 (onError e).2)
            end
          else ([NewURL url], inl (jsonResponse (ErrorBody (lit "Invalid URL format")) 400))
        else ([], inl (jsonResponse (ErrorBody (lit "URL is required")) 400))
    end.
Proof.
  destruct request as [| |[url|]]; try reflexivity.
  destruct (nonEmpty url) eqn:Hne.
  - destruct (validURL url) eqn:Hvalid; [|by apply POST_invalid_url].
    destruct (axiosGet url) as [html|e] eqn:Hget.
    + by apply POST_fetched.
    + by apply POST_fetch_error.
  - destruct url; [reflexivity|done].
Qed.

(** What [processPage] answers with, whichever branch it takes. *)
Lemma processPage_response url html :
  ∃ evs resp,
    processPage load translationDict url html = (evs, inl resp)
    ∧ headers resp = corsHeaders
    ∧ fetches evs = 0%nat ∧ urlParses evs = 0%nat
    ∧ ((status resp = 400 ∧ ∃ msg, body resp = ErrorBody msg)
       ∨ (status resp = 200
          ∧ body resp = BlogBody (blogOf load translationDict url html)
          ∧ (100 ≤ length (extractTextFromHtml load html))%nat
          ∧ generateSummary (extractTextFromHtml load html) ≠ [])).
Proof.
  rewrite processPage_cases.
  destruct (length _ <? 100)%nat eqn:Hlen.
  { eexists _, _. split; [reflexivity|]. split_and!; try done. left. split; [done|by eexists]. }
  destruct (nonEmpty (generateSummary _)) eqn:Hsum.
  - eexists _, _. split; [reflexivity|]. split_and!; try done. right.
    apply Nat.ltb_ge in Hlen. split_and!; try done. intros He. by rewrite He in Hsum.
  - eexists _, _. split; [reflexivity|]. split_and!; try done. left. split; [done|by eexists].
Qed.

(** X3: the handler never throws when a fetch that resolves carries a string
    and [cheerio.load] builds a tree from it: whatever the request body,
    whatever [new URL] decides and however the fetch fails, it returns a
    response, and the response carries the CORS headers. *)
Theorem POST_always_responds request :
  ∃ evs resp,
    POST validURL axiosGet load translationDict request = (evs, inl resp)
    ∧ headers resp = corsHeaders.
Proof.
  rewrite POST_cases. destruct request as [| |[url|]]; try by eexists _, _.
  destruct (nonEmpty url); [|by eexists _, _].
  destruct (validURL url); [|by eexists _, _].
  destruct (axiosGet url) as [html|e].
  - destruct (processPage_response url html) as (evs & resp & -> & Hh & _).
    by eexists _, _.
  - destruct (onError_returns e) as (resp & -> & Hh & _). by eexists _, _.
Qed.

Lemma POST_status_and_body_facts request evs resp :
  POST validURL axiosGet load translationDict request = (evs, inl resp) →
  (status resp = 200 ∨ status resp = 400 ∨ status resp = 500)
  ∧ (status resp = 200 ↔ ∃ blog, body resp = BlogBody blog)
  ∧ (status resp ≠ 200 ↔ ∃ msg, body resp = ErrorBody msg).
Proof.
  assert (∀ r : response,
            (status r = 400 ∨ status r = 500) → (∃ msg, body r = ErrorBody msg) →
            (status r = 200 ∨ status r = 400 ∨ status r = 500)
            ∧ (status r = 200 ↔ ∃ blog, body r = BlogBody blog)
            ∧ (status r ≠ 200 ↔ ∃ msg, body r = ErrorBody msg)) as Herr.
  { intros r Hs [msg Hb]. split_and!.
    - tauto.
    - split; [intros H200; destruct Hs as [Hs|Hs]; rewrite Hs in H200; discriminate|].
      intros [blog Hblog]. congruence.
    - split; [by eexists|]. intros _ H200.
      destruct Hs as [Hs|Hs]; rewrite Hs in H200; discriminate. }
  rewrite POST_cases. destruct request as [| |[url|]]; cbv beta iota.
  1,2,4: intros [= <- <-]; apply Herr; cbn; eauto.
  destruct (nonEmpty url); [|intros [= <- <-]; apply Herr; cbn; eauto].
  destruct (validURL url); [|intros [= <- <-]; apply Herr; cbn; eauto].
  destruct (axiosGet url) as [html|e].
  - destruct (processPage_response url html) as (evs' & resp' & -> & _ & _ & _ & Hcase).
    cbn. intros [= <- <-].
    destruct Hcase as [[Hs Hb] | (Hs & Hb & _)]; [apply Herr; auto|].
    split_and!.
    + auto.
    + split; [by eexists | done].
    + split; [done|]. intros [msg Hm]. congruence.
  - destruct (onError_returns e) as (resp' & -> & _ & Hb & Hs).
    cbn. intros [= <- <-]. apply Herr; auto.
Qed.

(** X4: a response has status 200, 400 or 500; it has status 200 exactly
    when its body is a blog and another status exactly when its body is an
    error. *)
Theorem POST_status_and_body request evs resp :
  POST validURL axiosGet load translationDict request = (evs, inl resp) →
  (status resp = 200 ∨ status resp = 400 ∨ status resp = 500)
  ∧ (status resp = 200 ↔ ∃ blog, body resp = BlogBody blog)
  ∧ (status resp ≠ 200 ↔ ∃ msg, body resp = ErrorBody msg).
Proof. apply POST_status_and_body_facts. Qed.

(** X5: a request causes at most one [new URL] and at most one fetch, and a
    fetch is of the request's own URL, which is not empty, which [new URL]
    accepted, and which was parsed before it was fetched. *)
Theorem POST_fetch_discipline request evs out :
  POST validURL axiosGet load translationDict request = (evs, out) →
  (fetches evs ≤ 1)%nat ∧ (urlParses evs ≤ 1)%nat
  ∧ ∀ u, AxiosGet u ∈ evs →
         request = BodyValue (Some u) ∧ u ≠ [] ∧ validURL u = true
         ∧ ∃ before after, evs = before ++ AxiosGet u :: after ∧ NewURL u ∈ before.
Proof.
  rewrite POST_cases.
  assert (∀ evs : list event, fetches evs = 0%nat → ∀ u, AxiosGet u ∉ evs) as Hnone.
  { intros l Hl u Hin. unfold fetches in Hl.
    assert (AxiosGet u ∈ List.filter (λ ev, match ev with AxiosGet _ => true | _ => false end) l)
      as Hf by (apply list_elem_of_In, filter_In; split; [by apply list_elem_of_In|done]).
    destruct (List.filter _ l); [by apply elem_of_nil in Hf | done]. }
  destruct request as [| |[url|]]; cbv beta iota.
  1,2,4: intros [= <- <-]; (split_and!; [cbn; lia | cbn; lia |]);
       intros u Hu; exfalso; revert Hu; by apply Hnone.
  destruct (nonEmpty url) eqn:Hne.
  2: { intros [= <- <-]; (split_and!; [cbn; lia | cbn; lia |]);
       intros u Hu; exfalso; revert Hu; by apply Hnone. }
  destruct (validURL url) eqn:Hvalid.
  2: { intros [= <- <-]; (split_and!; [cbn; lia | cbn; lia |]);
       intros u Hu; exfalso; revert Hu; by apply Hnone. }
  assert (url ≠ []) as Hurl by (intros ->; done).
  destruct (axiosGet url) as [html|e].
  - destruct (processPage_response url html) as (evs' & resp' & -> & _ & Hf & Hp & _).
    cbn. intros [= <- <-]. unfold fetches, urlParses in *. cbn. split_and!; [lia | lia |].
    intros u Hu. rewrite !elem_of_cons in Hu.
    destruct Hu as [Hu | [Hu | [Hu | Hu]]]; try discriminate Hu.
    + injection Hu as ->. split_and!; try done.
      exists [NewURL url; ConsoleLog (lit "Processing URL: " ++ url)], evs'.
      split; [done|]. apply elem_of_cons. by left.
    + exfalso. revert Hu. by apply Hnone.
  - intros [= <- <-]. split_and!; [cbn; lia | cbn; lia |].
    intros u Hu. rewrite !elem_of_cons in Hu.
    destruct Hu as [Hu | [Hu | [Hu | [Hu | Hu]]]]; try discriminate Hu.
    + injection Hu as ->. split_and!; try done.
      exists [NewURL url; ConsoleLog (lit "Processing URL: " ++ url)], [ConsoleError].
      split; [done|]. apply elem_of_cons. by left.
    + by apply elem_of_nil in Hu.
Qed.

Lemma onError_status e :
  ∃ resp, onError e = ([ConsoleError], inl resp)
    ∧ (∃ msg, body resp = ErrorBody msg)
    ∧ (status resp = 400 ↔ recognisedFailure e)
    ∧ (status resp = 500 ↔ ¬ recognisedFailure e).
Proof.
  unfold onError, emit. cbn.
  destruct e as [code st|]; cbn.
  2: { eexists. split; [reflexivity|]. split; [by eexists|]. cbn. split; split; try done.
       tauto. }
  repeat (case_bool_decide; cbn);
    (eexists; split; [reflexivity|]; split; [by eexists|]; cbn;
     split; split; try done; try tauto; try (intros _; tauto)).
Qed.

(** X6: a failed fetch is answered with an error after the one attempt:
    status 400 for the failures the handler names (ENOTFOUND, ECONNREFUSED,
    ECONNABORTED, a 404 or a 403), status 500 for every other. *)
Theorem fetch_failure_status url e :
  nonEmpty url = true → validURL url = true → axiosGet url = inr e →
  ∃ resp,
    POST validURL axiosGet load translationDict (BodyValue (Some url))
    = ([NewURL url; ConsoleLog (lit "Processing URL: " ++ url); AxiosGet url; ConsoleError],
       inl resp)
    ∧ (∃ msg, body resp = ErrorBody msg)
    ∧ (status resp = 400 ↔ recognisedFailure e)
    ∧ (status resp = 500 ↔ ¬ recognisedFailure e).
Proof.
  intros Hne Hvalid Hget. rewrite (POST_fetch_error url e) by done.
  destruct (onError_status e) as (resp & -> & Hb & H4 & H5). by exists resp.
Qed.

(** X7: a timeout of the fetch (ECONNABORTED) is answered 400 "Request
    timeout..." unless the error carries a 404 or 403 response, which are
    looked at first. *)
Theorem fetch_timeout_reported url st :
  nonEmpty url = true → validURL url = true →
  axiosGet url = inr (AxiosError (Some (lit "ECONNABORTED")) st) →
  st ≠ Some 404 → st ≠ Some 403 →
  (POST validURL axiosGet load translationDict (BodyValue (Some url))).2
  = inl (jsonResponse
           (ErrorBody (lit "Request timeout. The website took too long to respond.")) 400).
Proof.
  intros Hne Hvalid Hget H404 H403. rewrite (POST_fetch_error url _) by done.
  unfold onError, emit. cbn.
  rewrite (bool_decide_eq_false_2 _ H404), (bool_decide_eq_false_2 _ H403). reflexivity.
Qed.

Lemma blog_of_success url html resp blog :
  nonEmpty url = true → validURL url = true → axiosGet url = inl html →
  (POST validURL axiosGet load translationDict (BodyValue (Some url))).2 = inl resp →
  body resp = BlogBody blog →
  blog = blogOf load translationDict url html
  ∧ (100 ≤ length (extractTextFromHtml load html))%nat.
Proof.
  intros Hne Hvalid Hget Hout Hbody.
  rewrite (POST_fetched _ _ _ _ url html) in Hout by done.
  destruct (processPage_response url html) as (evs & resp' & Hp & _ & _ & _ & Hcase).
  rewrite Hp in Hout. cbn in Hout. injection Hout as ->.
  destruct Hcase as [[_ [msg Hm]] | (_ & Hb & Hlen & _)]; [congruence|].
  split; [congruence | done].
Qed.

Lemma orElse_nonempty a b : b ≠ [] → orElse a b ≠ [].
Proof. unfold orElse. destruct a; done. Qed.

Lemma extractTitle_nonempty doc : extractTitle doc ≠ [].
Proof.
  unfold extractTitle. do 3 apply orElse_nonempty. vm_compute. discriminate.
Qed.

Lemma splitRuns_nonempty cls s piece inSep :
  (1 ≤ length (splitRuns cls s piece inSep))%nat.
Proof.
  revert piece inSep. induction s as [|c s IH]; intros piece inSep; cbn; [lia|].
  destruct (cls c); [destruct inSep; cbn; [apply IH | lia] | apply IH].
Qed.

(** X8: in a blog the [url] is the request's, the [title] is not empty and
    at most 200 characters, and the [content] is the first 5000 characters
    of the extracted text, all of it when it is no longer. *)
Theorem blog_fields_bounded requested html resp blog :
  nonEmpty requested = true → validURL requested = true →
  axiosGet requested = inl html →
  (POST validURL axiosGet load translationDict (BodyValue (Some requested))).2 = inl resp →
  body resp = BlogBody blog →
  url blog = requested
  ∧ title blog ≠ [] ∧ (length (title blog) ≤ 200)%nat
  ∧ content blog `prefix_of` extractTextFromHtml load html
  ∧ (100 ≤ length (content blog) ≤ 5000)%nat
  ∧ ((length (extractTextFromHtml load html) ≤ 5000)%nat →
     content blog = extractTextFromHtml load html).
Proof.
  intros Hne Hvalid Hget Hout Hbody.
  destruct (blog_of_success requested html resp blog Hne Hvalid Hget Hout Hbody)
    as [-> Hlen].
  cbn [url title content blogOf]. unfold substring0. split_and!.
  - done.
  - pose proof (extractTitle_nonempty (load html)) as Ht.
    destruct (extractTitle (load html)); done.
  - rewrite length_take. lia.
  - apply prefix_take.
  - rewrite length_take. lia.
  - rewrite length_take. lia.
  - intros Hle. by apply take_ge.
Qed.

(** X9: in a blog the word count is at least 1, the reading time is
    [calculateReadTime] of it and at least 1 minute, and the Urdu summary is
    the translation of the summary sent with it. *)
Theorem blog_metrics url html resp blog :
  nonEmpty url = true → validURL url = true → axiosGet url = inl html →
  (POST validURL axiosGet load translationDict (BodyValue (Some url))).2 = inl resp →
  body resp = BlogBody blog →
  (1 ≤ wordCount blog)%nat
  ∧ readTime blog = calculateReadTime (wordCount blog)
  ∧ (1 ≤ readTime blog)%nat
  ∧ (wordCount blog ≤ 200 * readTime blog)%nat
  ∧ urduSummary blog = translateToUrdu translationDict (summary blog).
Proof.
  intros Hne Hvalid Hget Hout Hbody.
  destruct (blog_of_success url html resp blog Hne Hvalid Hget Hout Hbody) as [-> Hlen].
  cbn [wordCount readTime summary urduSummary blogOf].
  pose proof (splitRuns_nonempty isWhiteSpace (extractTextFromHtml load html) [] false) as Hw.
  destruct (calculateReadTime_bounds
              (length (splitRuns isWhiteSpace (extractTextFromHtml load html) [] false)))
    as [Hup _].
  split_and!; [done | done | lia | done | done].
Qed.

End HandlerCases.

(** ** The document tree *)

Lemma node_induction (P : node → Prop) :
  (∀ data, P (TextNode data)) →
  (∀ name attribs children, Forall P children → P (Element name attribs children)) →
  ∀ n, P n.
Proof.
  intros HT HE. fix IH 1. intros [data | name attribs children].
  - apply HT.
  - apply HE. revert children. fix IHl 1. intros [|c ch].
    + constructor.
    + constructor; [apply IH | apply IHl].
Qed.

Lemma flat_map_nil {A B} (f : A → list B) (l : list A) :
  Forall (λ x, f x = []) l → List.flat_map f l = [].
Proof. induction 1 as [|x l Hx _ IH]; cbn; [done|]. by rewrite Hx, IH. Qed.

Lemma flat_map_compose {A B C} (f : B → list C) (g : A → list B) (l : list A) :
  List.flat_map f (List.flat_map g l) = List.flat_map (λ x, List.flat_map f (g x)) l.
Proof.
  induction l as [|x l IH]; cbn; [done|]. by rewrite flat_map_app, IH.
Qed.

Lemma flat_map_ext_Forall {A B} (f g : A → list B) (l : list A) :
  Forall (λ x, f x = g x) l → List.flat_map f l = List.flat_map g l.
Proof. induction 1 as [|x l Hx _ IH]; cbn; [done|]. by rewrite Hx, IH. Qed.

Lemma matches_in_group sels sel n :
  sel ∈ sels → existsb (λ s, matches s n) sels = false → matches sel n = false.
Proof.
  intros Hin Hex. apply not_true_is_false. intros Hm.
  assert (existsb (λ s, matches s n) sels = true) as Ht.
  { apply existsb_exists. exists sel. split; [by apply list_elem_of_In | done]. }
  congruence.
Qed.

Lemma removeIn_select sels sel n :
  sel ∈ sels → List.flat_map (selectIn sel) (removeIn sels n) = [].
Proof.
  intros Hin. induction n as [data | name attribs children IH] using node_induction.
  - reflexivity.
  - cbn [removeIn].
    destruct (existsb _ sels) eqn:Hex; [reflexivity|].
    cbn [List.flat_map selectIn]. rewrite app_nil_r.
    assert (matches sel (Element name attribs (List.flat_map (removeIn sels) children))
            = false) as ->.
    { apply (matches_in_group sels); [done|]. exact Hex. }
    cbn [app]. rewrite flat_map_compose. by apply flat_map_nil.
Qed.

(** X10: after the removal no element, at any depth, matches one of the
    removed selectors. *)
Theorem removed_elements_are_gone sels sel doc :
  sel ∈ sels → select sel (remove sels doc) = [].
Proof.
  intros Hin. unfold select, remove. rewrite flat_map_compose.
  apply flat_map_nil, Forall_forall. intros n _. by apply removeIn_select.
Qed.

Lemma removeIn_twice sels n :
  List.flat_map (removeIn sels) (removeIn sels n) = removeIn sels n.
Proof.
  induction n as [data | name attribs children IH] using node_induction.
  - reflexivity.
  - cbn [removeIn]. destruct (existsb _ sels) eqn:Hex; [reflexivity|].
    cbn [List.flat_map removeIn]. rewrite app_nil_r.
    change (existsb (λ sel, matches sel
              (Element name attribs (List.flat_map (removeIn sels) children))) sels)
      with (existsb (λ sel, matches sel (Element name attribs children)) sels).
    rewrite Hex. do 2 f_equal. rewrite flat_map_compose.
    by apply flat_map_ext_Forall.
Qed.

(** X11: removing twice removes nothing more. *)
Theorem remove_idempotent sels doc :
  remove sels (remove sels doc) = remove sels doc.
Proof.
  unfold remove. rewrite flat_map_compose.
  apply flat_map_ext_Forall, Forall_forall. intros n _. apply removeIn_twice.
Qed.

Lemma flat_map_sublist {A B} (f g : A → list B) (l : list A) :
  Forall (λ x, f x `sublist_of` g x) l →
  List.flat_map f l `sublist_of` List.flat_map g l.
Proof.
  induction 1 as [|x l Hx _ IH]; cbn; [done|]. by apply sublist_app.
Qed.

Lemma removeIn_text sels n :
  List.flat_map textOf (removeIn sels n) `sublist_of` textOf n.
Proof.
  induction n as [data | name attribs children IH] using node_induction.
  - cbn. by rewrite app_nil_r.
  - cbn [removeIn]. destruct (existsb _ sels); [apply sublist_nil_l|].
    cbn [List.flat_map textOf]. rewrite app_nil_r, flat_map_compose.
    by apply flat_map_sublist.
Qed.

(** X12: the removal only deletes text: the text of the document after it is
    a subsequence of the text before. *)
Theorem remove_only_deletes_text sels doc :
  text (remove sels doc) `sublist_of` text doc.
Proof.
  unfold text, remove. rewrite flat_map_compose.
  apply flat_map_sublist, Forall_forall. intros n _. apply removeIn_text.
Qed.

Lemma removeIn_unmatched sels n :
  Forall (λ sel, selectIn sel n = []) sels → removeIn sels n = [n].
Proof.
  induction n as [data | name attribs children IH] using node_induction; intros Hsel.
  - reflexivity.
  - cbn [removeIn].
    assert (existsb (λ sel, matches sel (Element name attribs children)) sels = false) as ->.
    { apply not_true_is_false. intros Hex. apply existsb_exists in Hex as (sel & Hin & Hm).
      apply list_elem_of_In in Hin. rewrite Forall_forall in Hsel.
      specialize (Hsel sel Hin). cbn [selectIn] in Hsel. rewrite Hm in Hsel. done. }
    do 2 f_equal.
    assert (Forall (λ c, removeIn sels c = [c]) children) as Hch.
    { rewrite Forall_forall in IH. apply Forall_forall. intros c Hc. apply IH; [done|].
      apply Forall_forall. intros sel Hin. rewrite Forall_forall in Hsel.
      specialize (Hsel sel Hin). cbn [selectIn] in Hsel.
      apply app_eq_nil in Hsel as [_ Hsel].
      clear -Hsel Hc. induction children as [|d ch IHch]; [by apply elem_of_nil in Hc|].
      cbn in Hsel. apply app_eq_nil in Hsel as [Hd Hrest].
      apply elem_of_cons in Hc as [-> | Hc]; [done | by apply IHch]. }
    clear -Hch. induction Hch as [|c ch Hc _ IHch]; cbn; [done|]. by rewrite Hc, IHch.
Qed.

(** X13: a document in which no element matches is left as it is. *)
Theorem remove_nothing_to_remove sels doc :
  Forall (λ sel, select sel doc = []) sels → remove sels doc = doc.
Proof.
  intros Hsel. unfold remove. induction doc as [|n doc IH]; [done|].
  cbn. rewrite removeIn_unmatched, IH; [done | |].
  - eapply Forall_impl; [exact Hsel|]. intros sel H. unfold select in H. cbn in H.
    by apply app_eq_nil in H as [_ H].
  - eapply Forall_impl; [exact Hsel|]. intros sel H. unfold select in H. cbn in H.
    by apply app_eq_nil in H as [H _].
Qed.

(** ** The normal form of extracted text *)

Lemma singleSpaced_weaken s : singleSpaced s true = true → singleSpaced s false = true.
Proof.
  destruct s as [|c r]; cbn; [done|]. destruct (isWhiteSpace c); [|done].
  rewrite andb_false_r. done.
Qed.

Lemma singleSpaced_tail c r b : singleSpaced (c :: r) b = true → singleSpaced r false = true.
Proof.
  cbn. destruct (isWhiteSpace c); [|done].
  intros [_ H]%andb_true_iff. by apply singleSpaced_weaken.
Qed.

Lemma singleSpaced_prefix a k b : singleSpaced (a ++ k) b = true → singleSpaced a b = true.
Proof.
  revert b. induction a as [|c a IH]; intros b; cbn; [done|].
  destruct (isWhiteSpace c); [|apply IH].
  intros [H1 H2]%andb_true_iff. rewrite H1. cbn. by apply IH.
Qed.

Lemma singleSpaced_suffix k a b : singleSpaced (k ++ a) b = true → singleSpaced a false = true.
Proof.
  revert b. induction k as [|c k IH]; intros b; cbn [app].
  - destruct b; [apply singleSpaced_weaken | done].
  - intros H. apply singleSpaced_tail in H. by apply IH in H.
Qed.

Lemma trimStart_suffix s : ∃ k, s = k ++ trimStart s.
Proof.
  induction s as [|c s [k IH]]; cbn; [by exists []|].
  destruct (isWhiteSpace c); [|by exists []].
  exists (c :: k). cbn. by rewrite <- IH.
Qed.

Lemma trimEnd_prefix s : ∃ k, s = trimEnd s ++ k.
Proof.
  unfold trimEnd. destruct (trimStart_suffix (rev s)) as [k Hk].
  exists (rev k). rewrite <- rev_app_distr, <- Hk. by rewrite rev_involutive.
Qed.

Lemma trim_singleSpaced s : singleSpaced s false = true → singleSpaced (trim s) false = true.
Proof.
  intros H. unfold trim.
  destruct (trimStart_suffix s) as [k Hk]. rewrite Hk in H.
  apply singleSpaced_suffix in H.
  destruct (trimEnd_prefix (trimStart s)) as [k' Hk']. rewrite Hk' in H.
  by apply singleSpaced_prefix in H.
Qed.

Lemma collapse_singleSpaced s run :
  singleSpaced (replaceRuns isWhiteSpace (λ _, [space]) s run) false = true.
Proof.
  revert run. induction s as [|c s IH]; intros run; cbn [replaceRuns].
  - destruct run; reflexivity.
  - destruct (isWhiteSpace c) eqn:Hc; [apply IH|].
    destruct run as [|x run]; cbn [flushRun app].
    + cbn. rewrite Hc. apply IH.
    + cbn. rewrite Hc. apply IH.
Qed.

Lemma collapse_fixed s run :
  singleSpaced s (nonEmpty run) = true →
  replaceRuns isWhiteSpace (λ _, [space]) s run
  = flushRun (λ _, [space]) run ++ s.
Proof.
  revert run. induction s as [|c s IH]; intros run H; cbn [replaceRuns].
  - by rewrite app_nil_r.
  - cbn [singleSpaced] in H. destruct (isWhiteSpace c) eqn:Hc.
    + apply andb_true_iff in H as [H Hs]. apply andb_true_iff in H as [Hsp Hb].
      apply N.eqb_eq in Hsp. destruct run; [|done]. rewrite IH by done. by subst.
    + by rewrite (IH []).
Qed.

Lemma singleSpaced_no_lineBreak s b :
  singleSpaced s b = true → Forall (λ c, isLineBreak c = false) s.
Proof.
  revert b. induction s as [|c s IH]; intros b H; [constructor|].
  cbn in H. destruct (isWhiteSpace c) eqn:Hc.
  - apply andb_true_iff in H as [H Hs]. apply andb_true_iff in H as [Hsp _].
    apply N.eqb_eq in Hsp. subst. constructor; [reflexivity | by eapply IH].
  - constructor; [|by eapply IH].
    destruct (isLineBreak c) eqn:Hl; [|done].
    apply lineBreak_whiteSpace in Hl. congruence.
Qed.

(** A tidy line is its own normal form. *)
Lemma normalizeContent_fixed s :
  startsClean s → startsClean (rev s) → singleSpaced s false = true →
  matchesNoise s = false → normalizeContent s = s.
Proof.
  intros Hs Hr Hsp Hn. unfold normalizeContent, contentLines.
  rewrite (collapse_fixed s []) by done. cbn [flushRun app].
  rewrite splitRuns_no_separator by (by eapply singleSpaced_no_lineBreak).
  cbn [rev app map List.filter]. rewrite trim_fixed by done. rewrite Hn.
  destruct s; reflexivity.
Qed.

Lemma normalizeContent_tidy content :
  singleSpaced (normalizeContent content) false = true.
Proof.
  unfold normalizeContent.
  destruct (contentLines_cases content) as [-> | (raw & Hraw & _)]; [done|].
  rewrite Hraw. cbn.
  pose proof Hraw as Hraw'. unfold contentLines in Hraw'.
  rewrite splitRuns_no_separator in Hraw' by apply collapse_no_lineBreak.
  cbn [map List.filter] in Hraw'.
  destruct (_ && _) in Hraw'; [|done]. injection Hraw' as <-.
  apply trim_singleSpaced. cbn [rev app]. apply collapse_singleSpaced.
Qed.

(** X14: normalising a normalised text changes nothing. *)
Theorem normalizeContent_idempotent content :
  normalizeContent (normalizeContent content) = normalizeContent content.
Proof.
  destruct (normalizeContent_clean content) as [Hs Hr].
  apply normalizeContent_fixed; [done | done | apply normalizeContent_tidy |].
  apply normalizeContent_matchesNoise.
Qed.

Lemma singleSpaced_at s b pre c post :
  singleSpaced s b = true → s = pre ++ c :: post → isWhiteSpace c = true →
  c = space
  ∧ (pre = [] ∧ b = false ∨ ∃ pre' a, pre = pre' ++ [a] ∧ isWhiteSpace a = false)
  ∧ (post = [] ∨ ∃ d post', post = d :: post' ∧ isWhiteSpace d = false).
Proof.
  revert s b. induction pre as [|x pre IH]; intros s b Hs -> Hc.
  - cbn in Hs. rewrite Hc in Hs.
    apply andb_true_iff in Hs as [Hs Hpost]. apply andb_true_iff in Hs as [Hsp Hb].
    apply N.eqb_eq in Hsp. apply negb_true_iff in Hb. split_and!; [done | by left |].
    destruct post as [|d post']; [by left|]. right. exists d, post'. split; [done|].
    cbn in Hpost. destruct (isWhiteSpace d); [|done]. by rewrite andb_false_r in Hpost.
  - cbn [app singleSpaced] in Hs. destruct (isWhiteSpace x) eqn:Hx.
    + apply andb_true_iff in Hs as [_ Hs].
      destruct (IH _ _ Hs eq_refl Hc) as (Hsp & Hpre & Hpost).
      split_and!; [done | | done]. right.
      destruct Hpre as [[_ ?] | (pre' & a & -> & Ha)]; [done|].
      exists (x :: pre'), a. done.
    + destruct (IH _ _ Hs eq_refl Hc) as (Hsp & Hpre & Hpost).
      split_and!; [done | | done]. right.
      destruct Hpre as [[-> _] | (pre' & a & -> & Ha)].
      * by exists [], x.
      * exists (x :: pre'), a. done.
Qed.

(** X15: in the extractor's output every white-space character is a single
    space with a character that is not white space on either side: no
    leading or trailing space, no run of spaces, no tab or line break. *)
Theorem extracted_text_is_single_spaced doc pre c post :
  extractTextFromDocument doc = pre ++ c :: post → isWhiteSpace c = true →
  c = space
  ∧ (∃ pre' a, pre = pre' ++ [a] ∧ isWhiteSpace a = false)
  ∧ (∃ d post', post = d :: post' ∧ isWhiteSpace d = false).
Proof.
  unfold extractTextFromDocument. set (o := normalizeContent _).
  intros Ho Hc.
  destruct (normalizeContent_clean (selectContent (remove noiseSelectors doc))) as [Hs Hr].
  fold o in Hs, Hr.
  destruct (singleSpaced_at o false pre c post (normalizeContent_tidy _) Ho Hc)
    as (Hsp & Hpre & Hpost).
  split_and!; [done | |].
  - destruct Hpre as [[-> _] | H]; [|done]. rewrite Ho in Hs. cbn in Hs. congruence.
  - destruct Hpost as [-> | H]; [|done]. rewrite Ho in Hr.
    rewrite rev_app_distr in Hr. cbn in Hr. congruence.
Qed.

(** ** A noise phrase anywhere *)

Lemma printable_not_whiteSpace c : 33 ≤ c ≤ 126 → isWhiteSpace c = false.
Proof.
  intros [H1 H2]. unfold isWhiteSpace.
  repeat (apply orb_false_intro); try (apply N.eqb_neq; lia).
  apply andb_false_iff. left. apply N.leb_gt. lia.
Qed.

Lemma canonicalize_whiteSpace c : isWhiteSpace (canonicalize c) = isWhiteSpace c.
Proof.
  unfold canonicalize. destruct ((97 <=? c) && (c <=? 122)) eqn:H; [|done].
  apply andb_true_iff in H as [H1 H2]. apply N.leb_le in H1, H2.
  rewrite !printable_not_whiteSpace by lia. done.
Qed.

Lemma canonicalize_space c : (canonicalize c =? 32) = (c =? 32).
Proof.
  unfold canonicalize. destruct ((97 <=? c) && (c <=? 122)) eqn:H; [|done].
  apply andb_true_iff in H as [H1 H2]. apply N.leb_le in H1, H2.
  transitivity false; [apply N.eqb_neq; lia | symmetry; apply N.eqb_neq; lia].
Qed.

Lemma singleSpaced_foldCase s b : singleSpaced (foldCase s) b = singleSpaced s b.
Proof.
  revert b. induction s as [|c s IH]; intros b; cbn; [done|].
  rewrite canonicalize_whiteSpace, canonicalize_space, !IH. done.
Qed.

Lemma tidy_foldCase s : tidy (foldCase s) = tidy s.
Proof.
  unfold tidy. rewrite singleSpaced_foldCase. f_equal. f_equal; [f_equal|].
  - by destruct s.
  - destruct s; cbn; [done|]. by rewrite canonicalize_whiteSpace.
  - unfold foldCase. rewrite <- map_rev. destruct (rev s); cbn; [done|].
    by rewrite canonicalize_whiteSpace.
Qed.

Lemma tidy_spec s :
  tidy s = true →
  s ≠ [] ∧ startsClean s ∧ startsClean (rev s) ∧ singleSpaced s false = true.
Proof.
  unfold tidy, startsClean. intros H.
  apply andb_true_iff in H as [H H4]. apply andb_true_iff in H as [H H3].
  apply andb_true_iff in H as [H1 H2]. split_and!; [by destruct s | | | done].
  - destruct s; [done|]. by apply negb_true_iff.
  - destruct (rev s); [done|]. by apply negb_true_iff.
Qed.

Lemma trimStart_app pre x :
  x ≠ [] → startsClean x → trimStart (pre ++ x) = trimStart pre ++ x.
Proof.
  intros Hne Hx. induction pre as [|c pre IH]; cbn.
  - by apply trimStart_fixed.
  - by destruct (isWhiteSpace c).
Qed.

Lemma trim_keeps pre mid post :
  mid ≠ [] → startsClean mid → startsClean (rev mid) →
  ∃ pre' post', trim (pre ++ mid ++ post) = pre' ++ mid ++ post'.
Proof.
  intros Hne Hs Hr. unfold trim, trimEnd.
  rewrite trimStart_app; [|by destruct mid | by destruct mid].
  rewrite !rev_app_distr, <- app_assoc.
  assert (rev mid ≠ []) as Hrne by (by apply rev_nonempty).
  rewrite (trimStart_app (rev post) (rev mid ++ rev (trimStart pre)));
    [| by intros [H _]%app_eq_nil | by destruct (rev mid)].
  rewrite !rev_app_distr, !rev_involutive, <- app_assoc. by eexists _, _.
Qed.

Lemma collapse_keeps pre mid post :
  tidy mid = true →
  ∃ pre' post',
    replaceRuns isWhiteSpace (λ _, [space]) (pre ++ mid ++ post) []
    = pre' ++ mid ++ post'.
Proof.
  intros (Hne & Hs & Hr & Hsp)%tidy_spec.
  destruct mid as [|a mid']; [done|]. cbn in Hs. cbn [app].
  rewrite replaceRuns_separator by done.
  destruct (rev mid') as [|z m] eqn:Hrev.
  - apply (f_equal (@rev N)) in Hrev. rewrite rev_involutive in Hrev. subst mid'.
    cbn. by eexists _, _.
  - apply (f_equal (@rev N)) in Hrev. rewrite rev_involutive in Hrev. cbn in Hrev.
    subst mid'. cbn in Hr. rewrite rev_app_distr in Hr. cbn in Hr.
    rewrite <- app_assoc. cbn [app]. rewrite replaceRuns_separator by done.
    rewrite (collapse_fixed (rev m) []).
    + cbn [flushRun app]. eexists _, _. f_equal. f_equal.
      rewrite <- app_assoc. reflexivity.
    + cbn [nonEmpty]. apply singleSpaced_tail in Hsp.
      by apply singleSpaced_prefix in Hsp.
Qed.

Lemma noisePatterns_tidy : Forall (λ p, tidy p = true) noisePatterns.
Proof.
  unfold noisePatterns.
  repeat (apply Forall_cons; split; [vm_compute; reflexivity|]). apply Forall_nil_2.
Qed.

(** X16: a noise phrase anywhere in the selected content, in any letter
    case, empties the extractor's output: the content is one line after the
    collapse of white space, and the line is dropped whole. *)
Theorem noise_phrase_drops_everything content phrase :
  phrase ∈ noisePatterns → occursIgnoringCase phrase content →
  normalizeContent content = [].
Proof.
  intros Hin (pre & mid & post & -> & Hfold).
  assert (tidy mid = true) as Htidy.
  { rewrite <- tidy_foldCase, Hfold, tidy_foldCase.
    pose proof noisePatterns_tidy as Ht. rewrite Forall_forall in Ht. by apply Ht. }
  destruct (collapse_keeps pre mid post Htidy) as (p1 & q1 & Hcollapse).
  destruct (tidy_spec mid Htidy) as (Hne & Hs & Hr & _).
  destruct (trim_keeps p1 mid q1 Hne Hs Hr) as (p2 & q2 & Htrim).
  unfold normalizeContent, contentLines.
  rewrite splitRuns_no_separator by apply collapse_no_lineBreak.
  cbn [rev app map List.filter]. rewrite Hcollapse, Htrim.
  assert (matchesNoise (p2 ++ mid ++ q2) = true) as ->.
  { apply testAny_spec. exists phrase. split; [done|]. by exists p2, mid, q2. }
  rewrite andb_false_r. reflexivity.
Qed.

(** ** No selector matches *)

Lemma firstMatch_none selectors doc :
  Forall (λ s, select s doc = []) selectors → firstMatch selectors doc = [].
Proof. induction 1 as [|s l Hs _ IH]; cbn; [done|]. by rewrite Hs. Qed.

(** X17: when no content selector matches an element, the content is the
    text of [body]. *)
Theorem no_selector_falls_back_to_body doc :
  Forall (λ s, select s (remove noiseSelectors doc) = []) contentSelectors →
  selectContent (remove noiseSelectors doc)
  = text (select (ByTag (lit "body")) (remove noiseSelectors doc))
  ∧ extractTextFromDocument doc
    = normalizeContent (text (select (ByTag (lit "body")) (remove noiseSelectors doc))).
Proof.
  intros H. assert (selectContent (remove noiseSelectors doc)
                    = text (select (ByTag (lit "body")) (remove noiseSelectors doc))) as Hc.
  { unfold selectContent. by rewrite firstMatch_none. }
  split; [done|]. unfold extractTextFromDocument. by rewrite Hc.
Qed.

(** ** The sentences of a summary *)


Lemma setFrom_complete seen xs x :
  x ∈ xs → x ∉ seen → x ∈ setFrom seen xs.
Proof.
  revert seen. induction xs as [|y xs IH]; intros seen Hin Hs; [by apply elem_of_nil in Hin|].
  cbn. apply elem_of_cons in Hin as [-> | Hin].
  - rewrite bool_decide_eq_false_2 by done. apply elem_of_cons. by left.
  - case_bool_decide as Hy; [by apply IH|].
    destruct (decide (x = y)) as [-> | Hne]; [apply elem_of_cons; by left|].
    apply elem_of_cons. right. apply IH; [done|].
    intros [-> | H]%elem_of_cons; done.
Qed.


Lemma matchSentences_infix s run m :
  m ∈ matchSentences s run → ∃ pre post, rev run ++ s = pre ++ m ++ post.
Proof.
  revert run. induction s as [|c s IH]; intros run Hm; cbn [matchSentences] in Hm.
  - destruct run as [|x run]; [by apply elem_of_nil in Hm|].
    apply list_elem_of_singleton in Hm as ->. exists [], []. by rewrite !app_nil_r.
  - destruct (isSentenceBreak c).
    + assert (m ∈ matchSentences s [] → ∃ pre post, rev run ++ c :: s = pre ++ m ++ post)
        as Hrest.
      { intros (pre & post & Hs)%IH. cbn in Hs. exists (rev run ++ c :: pre), post.
        rewrite Hs, <- app_assoc. done. }
      destruct run as [|x run]; [by apply Hrest|].
      destruct (isTerminal c).
      * apply elem_of_cons in Hm as [-> | Hm]; [|by apply Hrest].
        exists [], s. change (rev (c :: x :: run)) with (rev (x :: run) ++ [c]).
        by rewrite <- app_assoc.
      * apply elem_of_cons in Hm as [-> | Hm]; [|by apply Hrest].
        by exists [], (c :: s).
    + apply IH in Hm as (pre & post & Hs). exists pre, post. rewrite <- Hs.
      cbn [rev]. by rewrite <- app_assoc.
Qed.

Lemma trim_infix x : ∃ pre post, x = pre ++ trim x ++ post.
Proof.
  destruct (trimStart_suffix x) as [k Hk].
  destruct (trimEnd_prefix (trimStart x)) as [k' Hk'].
  exists k, k'. unfold trim. by rewrite <- Hk', <- Hk.
Qed.

(** X19: every candidate sentence stands in the content as it is: the
    summary is made of excerpts. *)
Theorem summary_sentences_are_excerpts content s :
  s ∈ uniqueSentences content → ∃ pre post, content = pre ++ s ++ post.
Proof.
  intros Hs. eapply elem_of_sublist in Hs; [|apply uniqueSentences_sublist].
  apply list_elem_of_In, in_map_iff in Hs as (m & <- & Hm).
  apply list_elem_of_In, matchSentences_infix in Hm as (pre & post & Hc).
  destruct (trim_infix m) as (p & q & Hm). cbn in Hc.
  exists (pre ++ p), (q ++ post). rewrite Hc. rewrite Hm at 1.
  by rewrite <- !app_assoc.
Qed.

Lemma matchSentences_shape s run :
  Forall (λ c, isSentenceBreak c = false) run →
  Forall (λ m, ∃ body tail,
            m = body ++ tail ∧ body ≠ []
            ∧ Forall (λ c, isSentenceBreak c = false) body
            ∧ (tail = [] ∨ ∃ c, tail = [c] ∧ isTerminal c = true))
    (matchSentences s run).
Proof.
  assert (∀ run, run ≠ [] → Forall (λ c, isSentenceBreak c = false) run →
            rev run ≠ [] ∧ Forall (λ c, isSentenceBreak c = false) (rev run)) as Hrev.
  { intros r Hne Hr. split; [by apply rev_nonempty | by apply Forall_rev]. }
  revert run. induction s as [|c s IH]; intros run Hrun; cbn [matchSentences].
  - destruct run as [|x run]; [constructor|]. constructor; [|constructor].
    exists (rev (x :: run)), []. rewrite app_nil_r.
    destruct (Hrev (x :: run)); [done | done |]. split_and!; auto.
  - destruct (isSentenceBreak c) eqn:Hc; [|apply IH; by constructor].
    destruct run as [|x run]; [by apply IH|].
    destruct (Hrev (x :: run)) as [Hne Hbody]; [done | done |].
    destruct (isTerminal c) eqn:Ht; (constructor; [|by apply IH]).
    + exists (rev (x :: run)), [c]. split_and!; [done | done | done |].
      right. by exists c.
    + exists (rev (x :: run)), []. rewrite app_nil_r. split_and!; auto.
Qed.

Lemma matchSentences_keeps s run :
  Forall (λ c, isSentenceBreak c = false) run →
  List.filter (λ c, negb (isSentenceBreak c)) (concat (matchSentences s run))
  = rev run ++ List.filter (λ c, negb (isSentenceBreak c)) s.
Proof.
  assert (∀ l, Forall (λ c, isSentenceBreak c = false) l →
            List.filter (λ c, negb (isSentenceBreak c)) l = l) as Hid.
  { induction 1 as [|x l Hx _ IHl]; cbn; [done|]. by rewrite Hx, IHl. }
  revert run. induction s as [|c s IH]; intros run Hrun; cbn [matchSentences].
  - rewrite app_nil_r. destruct run as [|x run]; [done|].
    cbn [concat]. rewrite app_nil_r. by apply Hid, Forall_rev.
  - cbn [List.filter]. destruct (isSentenceBreak c) eqn:Hc; cbn [negb].
    + assert (List.filter (λ c, negb (isSentenceBreak c)) (rev run) = rev run) as Hr
        by (by apply Hid, Forall_rev).
      destruct run as [|x run]; [by apply IH|].
      destruct (isTerminal c); cbn [concat]; rewrite List.filter_app, (IH []) by constructor.
      * change (rev (c :: x :: run)) with (rev (x :: run) ++ [c]).
        rewrite List.filter_app, Hr. cbn [List.filter]. rewrite Hc. cbn. by rewrite app_nil_r.
      * by rewrite Hr.
    + rewrite IH by (by constructor). cbn [rev]. by rewrite <- app_assoc.
Qed.

(** X20: a sentence is a non-empty run of characters other than [. ! ?] and
    newline, followed by at most one of [. ! ?]; together the sentences
    hold every such character of the content, in order. *)
Theorem sentences_cover_content content :
  Forall (λ m, ∃ body tail,
            m = body ++ tail ∧ body ≠ []
            ∧ Forall (λ c, isSentenceBreak c = false) body
            ∧ (tail = [] ∨ ∃ c, tail = [c] ∧ isTerminal c = true))
    (sentences content)
  ∧ List.filter (λ c, negb (isSentenceBreak c)) (concat (sentences content))
    = List.filter (λ c, negb (isSentenceBreak c)) content.
Proof.
  unfold sentences. split.
  - apply matchSentences_shape. constructor.
  - apply (matchSentences_keeps content []). constructor.
Qed.

(** ** The translator, piece by piece *)

(** X21: a character that is no word character cuts the translation in two:
    the parts before and after it are translated on their own. *)
Theorem translate_splits_at_non_word (dict : gmap jsstring jsstring) a c b :
  isWordChar c = false →
  translateToUrdu dict (a ++ c :: b)
  = translateToUrdu dict a ++ c :: translateToUrdu dict b.
Proof. intros Hc. unfold translateToUrdu. by apply replaceRuns_separator. Qed.

Lemma lowerUnit_letter c :
  (97 <=? lowerUnit c) && (lowerUnit c <=? 122) || (lowerUnit c =? 95) = true →
  isWordChar c = true.
Proof.
  unfold lowerUnit, isWordChar.
  destruct ((65 <=? c) && (c <=? 90)) eqn:Hu; [done|].
  intros [H | H]%orb_true_iff.
  - rewrite H. by rewrite orb_true_r.
  - rewrite H. by rewrite !orb_true_r.
Qed.

Lemma inherited_word w :
  inheritedName (toLowerCase w) → w ≠ [] ∧ Forall (λ c, isWordChar c = true) w.
Proof.
  intros Hn.
  assert (toLowerCase w ≠ []
          ∧ Forall (λ x, (97 <=? x) && (x <=? 122) || (x =? 95) = true) (toLowerCase w))
    as [Hne Hl].
  { destruct Hn as [-> | ->]; (split; [by vm_compute|]);
      apply Forall_forall; intros x Hx; vm_compute in Hx;
      repeat (apply elem_of_cons in Hx as [-> | Hx]; [reflexivity|]);
      by apply elem_of_nil in Hx. }
  split; [by destruct w|].
  unfold toLowerCase in Hl. apply Forall_map in Hl.
  eapply Forall_impl; [exact Hl|]. intros c Hc. by apply lowerUnit_letter.
Qed.

(** X22: a word that lowercases to [constructor] or [__proto__] and is not a
    key of the dictionary is never left as it is: it is replaced by the text
    of the property the dictionary object inherits. *)
Theorem inherited_property_is_substituted (dict : gmap jsstring jsstring) w :
  inheritedName (toLowerCase w) → dict !! toLowerCase w = None →
  translateToUrdu dict w
  = (if bool_decide (toLowerCase w = lit "constructor")
     then lit "function Object() { [native code] }"
     else lit "[object Object]")
  ∧ translateToUrdu dict w ≠ w.
Proof.
  intros Hn Hd. destruct (inherited_word w Hn) as [Hne Hw].
  assert (translateToUrdu dict w
          = (if bool_decide (toLowerCase w = lit "constructor")
             then lit "function Object() { [native code] }"
             else lit "[object Object]")) as Ht.
  { unfold translateToUrdu. rewrite replaceRuns_word by done.
    unfold translateWord, getProperty. rewrite Hd.
    destruct Hn as [Hn | Hn]; rewrite Hn; vm_compute; reflexivity. }
  split; [done|]. rewrite Ht. intros He. rewrite <- He in Hw.
  case_bool_decide; vm_compute in Hw.
  - do 8 apply Forall_cons_1 in Hw as [_ Hw].
    apply Forall_cons_1 in Hw as [Hsp _]. discriminate Hsp.
  - apply Forall_cons_1 in Hw as [Hsp _]. discriminate Hsp.
Qed.

(** ** The page and the handler *)

(** X23: when [onSubmit] has finished the page is idle again; it shows the
    parsed body with no error when the response was ok and parsed, and
    otherwise no result and one error: "Failed to process blog" for a
    response that is not ok, else the message of what was thrown. *)
Theorem onSubmit_outcome reply st :
  isProcessing (onSubmit reply st) = false
  ∧ currentStep (onSubmit reply st) = 0%nat
  ∧ match reply with
    | FetchResolved responseStatus (inl data) =>
        if ok responseStatus
        then result (onSubmit reply st) = Some data ∧ error (onSubmit reply st) = []
        else result (onSubmit reply st) = None
             ∧ error (onSubmit reply st) = lit "Failed to process blog"
    | FetchResolved responseStatus (inr why) =>
        result (onSubmit reply st) = None
        ∧ error (onSubmit reply st)
          = if ok responseStatus
            then match why with
                 | ErrorObject message => message
                 | OtherValue => lit "An error occurred"
                 end
            else lit "Failed to process blog"
    | FetchRejected why =>
        result (onSubmit reply st) = None
        ∧ error (onSubmit reply st)
          = match why with
            | ErrorObject message => message
            | OtherValue => lit "An error occurred"
            end
    end.
Proof.
  unfold onSubmit, tryBody.
  destruct reply as [why | responseStatus [data | why]]; cbn.
  - done.
  - destruct (ok responseStatus); done.
  - destruct (ok responseStatus); done.
Qed.

Section Served.

Variable validURL : jsstring → bool.
Variable axiosGet : jsstring → jsstring + exn.
Variable load : jsstring → list node.
Variable translationDict : gmap jsstring jsstring.

(** X24: served by the handler, the page shows the blog when the handler
    sent one, and otherwise "Failed to process blog", whatever error message
    the handler sent. *)
Theorem page_shows_blog_or_fixed_message request evs resp st :
  POST validURL axiosGet load translationDict request = (evs, inl resp) →
  match body resp with
  | BlogBody blog =>
      result (onSubmit (delivered resp) st) = Some (BlogBody blog)
      ∧ error (onSubmit (delivered resp) st) = []
  | ErrorBody _ =>
      result (onSubmit (delivered resp) st) = None
      ∧ error (onSubmit (delivered resp) st) = lit "Failed to process blog"
  end.
Proof.
  intros HP.
  destruct (POST_status_and_body_facts validURL axiosGet load translationDict
              request evs resp HP) as (Hs & H200 & Herr).
  unfold onSubmit, tryBody, delivered.
  destruct (body resp) as [msg | blog] eqn:Hb.
  - assert (status resp ≠ 200) as Hne by (apply Herr; by eexists).
    assert (ok (status resp) = false) as ->.
    { destruct Hs as [Hs | [Hs | Hs]]; [done | by rewrite Hs | by rewrite Hs]. }
    done.
  - assert (status resp = 200) as -> by (apply H200; by eexists). done.
Qed.

End Served.

(** ** Further properties on concrete inputs *)

Lemma readTime_monotone_witness :
  (150 ≤ 450)%nat ∧ (calculateReadTime 150 ≤ calculateReadTime 450)%nat.
Proof.
  assert (150 ≤ 450)%nat as H by lia.
  split; [exact H | exact (readTime_monotone 150 450 H)].
Defined.

Lemma sample_POST :
  POST hasColon sampleGet sampleLoad translationDictShown (BodyValue (Some sampleUrl))
  = ([NewURL sampleUrl; ConsoleLog (lit "Processing URL: " ++ sampleUrl); AxiosGet sampleUrl;
      ConsoleLog (lit "Successfully processed: Sample")],
     inl (jsonResponse
            (BlogBody (blogOf sampleLoad translationDictShown sampleUrl sampleHtml)) 200)).
Proof. vm_compute. reflexivity. Qed.

Lemma POST_status_and_body_witness :
  POST hasColon sampleGet sampleLoad translationDictShown (BodyValue (Some sampleUrl))
  = ([NewURL sampleUrl; ConsoleLog (lit "Processing URL: " ++ sampleUrl); AxiosGet sampleUrl;
      ConsoleLog (lit "Successfully processed: Sample")],
     inl (jsonResponse
            (BlogBody (blogOf sampleLoad translationDictShown sampleUrl sampleHtml)) 200))
  ∧ (200 = 200 ↔ ∃ blog,
        BlogBody (blogOf sampleLoad translationDictShown sampleUrl sampleHtml)
        = BlogBody blog).
Proof.
  split; [exact sample_POST|].
  exact (proj1 (proj2 (POST_status_and_body hasColon sampleGet sampleLoad
                         translationDictShown _ _ _ sample_POST))).
Defined.

Lemma POST_fetch_discipline_witness :
  POST hasColon sampleGet sampleLoad translationDictShown (BodyValue (Some sampleUrl))
  = ([NewURL sampleUrl; ConsoleLog (lit "Processing URL: " ++ sampleUrl); AxiosGet sampleUrl;
      ConsoleLog (lit "Successfully processed: Sample")],
     inl (jsonResponse
            (BlogBody (blogOf sampleLoad translationDictShown sampleUrl sampleHtml)) 200))
  ∧ (fetches [NewURL sampleUrl; ConsoleLog (lit "Processing URL: " ++ sampleUrl);
              AxiosGet sampleUrl; ConsoleLog (lit "Successfully processed: Sample")]
     ≤ 1)%nat.
Proof.
  split; [exact sample_POST|].
  exact (proj1 (POST_fetch_discipline hasColon sampleGet sampleLoad
                  translationDictShown _ _ _ sample_POST)).
Defined.

Lemma fetch_failure_status_witness :
  nonEmpty sampleUrl = true ∧ hasColon sampleUrl = true
  ∧ failingGet (AxiosError (Some (lit "ENOTFOUND")) None) sampleUrl
    = inr (AxiosError (Some (lit "ENOTFOUND")) None)
  ∧ ∃ resp,
      POST hasColon (failingGet (AxiosError (Some (lit "ENOTFOUND")) None)) sampleLoad
        translationDictShown (BodyValue (Some sampleUrl))
      = ([NewURL sampleUrl; ConsoleLog (lit "Processing URL: " ++ sampleUrl);
          AxiosGet sampleUrl; ConsoleError], inl resp)
      ∧ (∃ msg, body resp = ErrorBody msg)
      ∧ (status resp = 400 ↔ recognisedFailure (AxiosError (Some (lit "ENOTFOUND")) None))
      ∧ (status resp = 500 ↔ ¬ recognisedFailure (AxiosError (Some (lit "ENOTFOUND")) None)).
Proof.
  split; [reflexivity|]. split; [reflexivity|]. split; [reflexivity|].
  exact (fetch_failure_status hasColon _ sampleLoad translationDictShown sampleUrl
           (AxiosError (Some (lit "ENOTFOUND")) None) eq_refl eq_refl eq_refl).
Defined.

Lemma fetch_timeout_reported_witness :
  nonEmpty sampleUrl = true ∧ hasColon sampleUrl = true
  ∧ failingGet (AxiosError (Some (lit "ECONNABORTED")) None) sampleUrl
    = inr (AxiosError (Some (lit "ECONNABORTED")) None)
  ∧ (None : option N) ≠ Some 404 ∧ (None : option N) ≠ Some 403
  ∧ (POST hasColon (failingGet (AxiosError (Some (lit "ECONNABORTED")) None)) sampleLoad
       translationDictShown (BodyValue (Some sampleUrl))).2
    = inl (jsonResponse
             (ErrorBody (lit "Request timeout. The website took too long to respond.")) 400).
Proof.
  assert ((None : option N) ≠ Some 404) as H404 by discriminate.
  assert ((None : option N) ≠ Some 403) as H403 by discriminate.
  split; [reflexivity|]. split; [reflexivity|]. split; [reflexivity|].
  split; [exact H404|]. split; [exact H403|].
  exact (fetch_timeout_reported hasColon _ sampleLoad translationDictShown sampleUrl None
           eq_refl eq_refl eq_refl H404 H403).
Defined.

Lemma blog_fields_bounded_witness :
  nonEmpty sampleUrl = true ∧ hasColon sampleUrl = true
  ∧ sampleGet sampleUrl = inl sampleHtml
  ∧ (POST hasColon sampleGet sampleLoad translationDictShown
       (BodyValue (Some sampleUrl))).2
    = inl (jsonResponse
             (BlogBody (blogOf sampleLoad translationDictShown sampleUrl sampleHtml)) 200)
  ∧ url (blogOf sampleLoad translationDictShown sampleUrl sampleHtml) = sampleUrl
  ∧ title (blogOf sampleLoad translationDictShown sampleUrl sampleHtml) ≠ [].
Proof.
  destruct sample_reaches_page as (H1 & H2 & H3).
  split; [exact H1|]. split; [exact H2|]. split; [exact H3|].
  split; [exact sample_outcome|].
  destruct (blog_fields_bounded hasColon sampleGet sampleLoad translationDictShown
              sampleUrl sampleHtml _ _ H1 H2 H3 sample_outcome eq_refl) as (Hu & Ht & _).
  exact (conj Hu Ht).
Defined.

Lemma blog_metrics_witness :
  nonEmpty sampleUrl = true ∧ hasColon sampleUrl = true
  ∧ sampleGet sampleUrl = inl sampleHtml
  ∧ (POST hasColon sampleGet sampleLoad translationDictShown
       (BodyValue (Some sampleUrl))).2
    = inl (jsonResponse
             (BlogBody (blogOf sampleLoad translationDictShown sampleUrl sampleHtml)) 200)
  ∧ (1 ≤ wordCount (blogOf sampleLoad translationDictShown sampleUrl sampleHtml))%nat.
Proof.
  destruct sample_reaches_page as (H1 & H2 & H3).
  split; [exact H1|]. split; [exact H2|]. split; [exact H3|].
  split; [exact sample_outcome|].
  exact (proj1 (blog_metrics hasColon sampleGet sampleLoad translationDictShown
                  sampleUrl sampleHtml _ _ H1 H2 H3 sample_outcome eq_refl)).
Defined.

Lemma nav_is_noise : ByTag (lit "nav") ∈ noiseSelectors.
Proof.
  unfold noiseSelectors. do 2 (apply elem_of_cons; right). apply elem_of_cons. by left.
Qed.

Lemma removed_elements_are_gone_witness :
  ByTag (lit "nav") ∈ noiseSelectors
  ∧ select (ByTag (lit "nav")) samplePage ≠ []
  ∧ select (ByTag (lit "nav")) (remove noiseSelectors samplePage) = [].
Proof.
  split; [exact nav_is_noise|]. split; [vm_compute; discriminate|].
  exact (removed_elements_are_gone noiseSelectors (ByTag (lit "nav")) samplePage nav_is_noise).
Defined.

Lemma emptyArticlePage_has_no_noise :
  Forall (λ sel, select sel emptyArticlePage = []) noiseSelectors.
Proof.
  unfold noiseSelectors.
  repeat (apply Forall_cons; split; [vm_compute; reflexivity|]). apply Forall_nil_2.
Qed.

Lemma remove_nothing_to_remove_witness :
  Forall (λ sel, select sel emptyArticlePage = []) noiseSelectors
  ∧ remove noiseSelectors emptyArticlePage = emptyArticlePage.
Proof.
  split; [exact emptyArticlePage_has_no_noise|].
  exact (remove_nothing_to_remove noiseSelectors emptyArticlePage
           emptyArticlePage_has_no_noise).
Defined.

Lemma samplePage_extracted :
  extractTextFromDocument samplePage
  = lit "The" ++ space :: lit "quick brown fox jumps over the lazy dog near the river bank. A second sentence follows here with plenty of words in it! Short one.".
Proof. vm_compute. reflexivity. Qed.

Lemma extracted_text_is_single_spaced_witness :
  extractTextFromDocument samplePage
  = lit "The" ++ space :: lit "quick brown fox jumps over the lazy dog near the river bank. A second sentence follows here with plenty of words in it! Short one."
  ∧ isWhiteSpace space = true
  ∧ space = space
  ∧ (∃ pre' a, lit "The" = pre' ++ [a] ∧ isWhiteSpace a = false).
Proof.
  split; [exact samplePage_extracted|]. split; [reflexivity|].
  destruct (extracted_text_is_single_spaced samplePage _ _ _ samplePage_extracted eq_refl)
    as (H1 & H2 & _).
  exact (conj H1 H2).
Defined.

Lemma placeholder_is_noise : lit "placeholder" ∈ noisePatterns.
Proof. apply elem_of_cons. by left. Qed.

Lemma placeholder_occurs :
  occursIgnoringCase (lit "placeholder") (lit "See the PlaceHolder here").
Proof. exists (lit "See the "), (lit "PlaceHolder"), (lit " here"). split; reflexivity. Qed.

Lemma noise_phrase_drops_everything_witness :
  lit "placeholder" ∈ noisePatterns
  ∧ occursIgnoringCase (lit "placeholder") (lit "See the PlaceHolder here")
  ∧ normalizeContent (lit "See the PlaceHolder here") = [].
Proof.
  split; [exact placeholder_is_noise|]. split; [exact placeholder_occurs|].
  exact (noise_phrase_drops_everything _ _ placeholder_is_noise placeholder_occurs).
Defined.

Lemma plainPage_has_no_container :
  Forall (λ s, select s (remove noiseSelectors plainPage) = []) contentSelectors.
Proof.
  unfold contentSelectors.
  repeat (apply Forall_cons; split; [vm_compute; reflexivity|]). apply Forall_nil_2.
Qed.

Lemma no_selector_falls_back_to_body_witness :
  Forall (λ s, select s (remove noiseSelectors plainPage) = []) contentSelectors
  ∧ selectContent (remove noiseSelectors plainPage)
    = text (select (ByTag (lit "body")) (remove noiseSelectors plainPage))
  ∧ extractTextFromDocument plainPage
    = normalizeContent (text (select (ByTag (lit "body")) (remove noiseSelectors plainPage))).
Proof.
  split; [exact plainPage_has_no_container|].
  exact (no_selector_falls_back_to_body plainPage plainPage_has_no_container).
Defined.

Lemma sample_first_sentence :
  lit "The quick brown fox jumps over the lazy dog near the river bank."
  ∈ uniqueSentences sampleText.
Proof. vm_compute. apply elem_of_cons. by left. Qed.

Lemma summary_sentences_are_excerpts_witness :
  lit "The quick brown fox jumps over the lazy dog near the river bank."
  ∈ uniqueSentences sampleText
  ∧ ∃ pre post,
      sampleText
      = pre ++ lit "The quick brown fox jumps over the lazy dog near the river bank." ++ post.
Proof.
  split; [exact sample_first_sentence|].
  exact (summary_sentences_are_excerpts sampleText _ sample_first_sentence).
Defined.

Lemma translate_splits_at_non_word_witness :
  isWordChar 44 = false
  ∧ translateToUrdu helloWorldDict (lit "Hello" ++ 44 :: lit " world!")
    = translateToUrdu helloWorldDict (lit "Hello")
      ++ 44 :: translateToUrdu helloWorldDict (lit " world!").
Proof.
  split; [reflexivity|].
  exact (translate_splits_at_non_word helloWorldDict (lit "Hello") 44 (lit " world!") eq_refl).
Defined.

Lemma Constructor_is_inherited : inheritedName (toLowerCase (lit "Constructor")).
Proof. left. reflexivity. Qed.

Lemma inherited_property_is_substituted_witness :
  inheritedName (toLowerCase (lit "Constructor"))
  ∧ translationDictShown !! toLowerCase (lit "Constructor") = None
  ∧ translateToUrdu translationDictShown (lit "Constructor")
    = lit "function Object() { [native code] }".
Proof.
  assert (translationDictShown !! toLowerCase (lit "Constructor") = None) as Hd
    by (vm_compute; reflexivity).
  split; [exact Constructor_is_inherited|]. split; [exact Hd|].
  exact (proj1 (inherited_property_is_substituted translationDictShown (lit "Constructor")
                  Constructor_is_inherited Hd)).
Defined.

Lemma page_shows_blog_or_fixed_message_witness :
  POST hasColon sampleGet sampleLoad translationDictShown (BodyValue (Some (lit "not a url")))
  = ([NewURL (lit "not a url")],
     inl (jsonResponse (ErrorBody (lit "Invalid URL format")) 400))
  ∧ result (onSubmit (delivered (jsonResponse (ErrorBody (lit "Invalid URL format")) 400))
              idlePage) = None
  ∧ error (onSubmit (delivered (jsonResponse (ErrorBody (lit "Invalid URL format")) 400))
             idlePage) = lit "Failed to process blog".
Proof.
  assert (POST hasColon sampleGet sampleLoad translationDictShown
            (BodyValue (Some (lit "not a url")))
          = ([NewURL (lit "not a url")],
             inl (jsonResponse (ErrorBody (lit "Invalid URL format")) 400))) as HP
    by reflexivity.
  split; [exact HP|].
  exact (page_shows_blog_or_fixed_message hasColon sampleGet sampleLoad translationDictShown
           _ _ _ idlePage HP).
Defined.

(** ** The gates of the handler, by what the request and the content are *)

Lemma matchesNoise_false_iff s :
  matchesNoise s = false ↔ Forall (λ phrase, ¬ occursIgnoringCase phrase s) noisePatterns.
Proof.
  split; [apply noise_free|]. intros Hfree. apply not_true_is_false. intros Hm.
  apply testAny_spec in Hm as (phrase & Hin & Hocc).
  rewrite Forall_forall in Hfree. by apply (Hfree phrase).
Qed.

(** Which strings are left after the deduplication and the filter. *)
Lemma uniqueSentences_member content s :
  s ∈ uniqueSentences content
  ↔ s ∈ map trim (sentences content)
    ∧ (30 < length s)%nat
    ∧ Forall (λ phrase, ¬ occursIgnoringCase phrase s) noisePatterns.
Proof.
  unfold uniqueSentences, arrayFromSet.
  rewrite list_elem_of_In, filter_In, <- list_elem_of_In.
  rewrite andb_true_iff, Nat.ltb_lt, negb_true_iff, matchesNoise_false_iff. split.
  - intros (Hin & Hl & Hn). split_and!; [|done|done].
    eapply elem_of_sublist; [exact Hin | apply setFrom_sublist].
  - intros (Hin & Hl & Hn). split_and!; [|done|done].
    apply setFrom_complete; [done | by intros ?%elem_of_nil].
Qed.

Lemma join_head sep x xs : x `prefix_of` join sep (x :: xs).
Proof.
  destruct xs as [|y ys]; cbn.
  - exists []. by rewrite app_nil_r.
  - by eexists.
Qed.



Section Gates.

Variable validURL : jsstring → bool.
Variable axiosGet : jsstring → jsstring + exn.
Variable load : jsstring → list node.
Variable translationDict : gmap jsstring jsstring.

(** C7: with enough content extracted, the handler answers 400 "Could not
    generate summary from the content" exactly when no trimmed sentence of
    the content is longer than 30 characters and free of the noise phrases;
    when there is such a sentence it answers 200 with a blog whose summary
    is the generated one, is not empty and begins with such a sentence. *)
Theorem summary_error_iff_nothing_survives url html :
  nonEmpty url = true → validURL url = true → axiosGet url = inl html →
  (100 ≤ length (extractTextFromHtml load html))%nat →
  let content := extractTextFromHtml load html in
  let outcome := (POST validURL axiosGet load translationDict (BodyValue (Some url))).2 in
  let survives (s : jsstring) :=
    s ∈ map trim (sentences content)
    ∧ (30 < length s)%nat
    ∧ Forall (λ phrase, ¬ occursIgnoringCase phrase s) noisePatterns in
  (outcome
   = inl (jsonResponse (ErrorBody (lit "Could not generate summary from the content")) 400)
   ↔ ∀ s, ¬ survives s)
  ∧ ((∃ s, survives s) →
     ∃ blog, outcome = inl (jsonResponse (BlogBody blog) 200)
             ∧ summary blog = generateSummary content
             ∧ summary blog ≠ []
             ∧ ∃ s, survives s ∧ s `prefix_of` summary blog).
Proof.
  intros Hne Hvalid Hget Hlen content outcome survives. subst outcome.
  rewrite (POST_fetched _ _ _ _ url html) by done.
  rewrite processPage_cases. fold content.
  apply Nat.ltb_ge in Hlen. fold content in Hlen. rewrite Hlen.
  pose proof (generateSummary_empty_iff content) as Hs.
  assert (uniqueSentences content = [] ↔ ∀ s, ¬ survives s) as Hnone.
  { split.
    - intros Hu s Hsurv. apply uniqueSentences_member in Hsurv.
      rewrite Hu in Hsurv. by apply elem_of_nil in Hsurv.
    - intros Hall. destruct (uniqueSentences content) as [|s u] eqn:Hu; [done|].
      exfalso. apply (Hall s), uniqueSentences_member. rewrite Hu.
      apply elem_of_cons. by left. }
  destruct (nonEmpty (generateSummary content)) eqn:Hsum; cbn [snd].
  - split.
    + split; [intros [Hb _]%jsonResponse_inj; discriminate Hb|].
      intros Hall. apply Hnone, Hs in Hall. congruence.
    + intros _. exists (blogOf load translationDict url html).
      split_and!; [done | done | |].
      * cbn [summary blogOf]. fold content. intros He. by rewrite He in Hsum.
      * cbn [summary blogOf]. fold content.
        destruct (uniqueSentences content) as [|s u] eqn:Hu.
        { destruct Hs as [_ Hs]. by specialize (Hs eq_refl). }
        exists s. split.
        -- apply uniqueSentences_member. rewrite Hu. apply elem_of_cons. by left.
        -- unfold generateSummary, slice0. rewrite orElse_nil, Hu. cbn [take].
           apply join_head.
  - split.
    + split; [|done]. intros _. by apply Hnone, Hs.
    + intros [s Hsurv]. exfalso. destruct Hs as [Hs _]. specialize (Hs eq_refl).
      destruct Hnone as [Hnone _]. exact (Hnone Hs s Hsurv).
Qed.


End Gates.


Lemma short_reaches_page :
  nonEmpty sampleUrl = true ∧ hasColon sampleUrl = true
  ∧ sampleGet sampleUrl = inl sampleHtml
  ∧ (100 ≤ length (extractTextFromHtml shortSentencesLoad sampleHtml))%nat.
Proof. split_and!; try reflexivity. vm_compute. lia. Qed.

Lemma short_nothing_survives s :
  ¬ (s ∈ map trim (sentences (extractTextFromHtml shortSentencesLoad sampleHtml))
     ∧ (30 < length s)%nat
     ∧ Forall (λ phrase, ¬ occursIgnoringCase phrase s) noisePatterns).
Proof.
  intros (Hin & Hlen & _). vm_compute in Hin.
  repeat (apply elem_of_cons in Hin as [-> | Hin]; [vm_compute in Hlen; lia|]).
  by apply elem_of_nil in Hin.
Qed.

Lemma sample_something_survives :
  ∃ s, s ∈ map trim (sentences (extractTextFromHtml sampleLoad sampleHtml))
       ∧ (30 < length s)%nat
       ∧ Forall (λ phrase, ¬ occursIgnoringCase phrase s) noisePatterns.
Proof.
  exists (lit "The quick brown fox jumps over the lazy dog near the river bank.").
  split_and!.
  - vm_compute. apply elem_of_cons. by left.
  - vm_compute. lia.
  - apply noise_free. vm_compute. reflexivity.
Qed.

(** Both sides: a page of short sentences is answered with the error, the
    sample page with a blog whose summary is not empty. *)
Lemma summary_error_iff_nothing_survives_witness :
  (nonEmpty sampleUrl = true ∧ hasColon sampleUrl = true
   ∧ sampleGet sampleUrl = inl sampleHtml
   ∧ (100 ≤ length (extractTextFromHtml shortSentencesLoad sampleHtml))%nat
   ∧ (POST hasColon sampleGet shortSentencesLoad translationDictShown
        (BodyValue (Some sampleUrl))).2
     = inl (jsonResponse (ErrorBody (lit "Could not generate summary from the content")) 400))
  ∧ (nonEmpty sampleUrl = true ∧ hasColon sampleUrl = true
     ∧ sampleGet sampleUrl = inl sampleHtml
     ∧ (100 ≤ length (extractTextFromHtml sampleLoad sampleHtml))%nat
     ∧ ∃ blog,
         (POST hasColon sampleGet sampleLoad translationDictShown
            (BodyValue (Some sampleUrl))).2
         = inl (jsonResponse (BlogBody blog) 200)
         ∧ summary blog = generateSummary (extractTextFromHtml sampleLoad sampleHtml)
         ∧ summary blog ≠ []).
Proof.
  destruct short_reaches_page as (S1 & S2 & S3 & S4).
  destruct sample_reaches_page as (H1 & H2 & H3).
  split.
  - split; [exact S1|]. split; [exact S2|]. split; [exact S3|]. split; [exact S4|].
    exact (proj2 (proj1 (summary_error_iff_nothing_survives hasColon sampleGet
                           shortSentencesLoad translationDictShown sampleUrl sampleHtml
                           S1 S2 S3 S4))
             short_nothing_survives).
  - split; [exact H1|]. split; [exact H2|]. split; [exact H3|].
    split; [exact sample_long_enough|].
    destruct (proj2 (summary_error_iff_nothing_survives hasColon sampleGet sampleLoad
                       translationDictShown sampleUrl sampleHtml H1 H2 H3
                       sample_long_enough)
                sample_something_survives) as (blog & Hout & Hsum & Hne & _).
    exists blog. exact (conj Hout (conj Hsum Hne)).
Defined.
